(** * fly execute: the one-shot task execution command

    A shallow embedding of [commands/execute.go]: the method
    [ExecuteCommand.Execute] and the goroutine body [abortOnSignal].

    The command is a small concurrent program.  After a sequential prelude
    (lines 30-77) the main goroutine starts a signal watcher, one goroutine
    that uploads the inputs in order, and one goroutine per output; it then
    renders the build's event stream, waits for the goroutines and calls
    [os.Exit].  The goroutines are modelled as program counters named after
    the source lines they stand at, and a run is a list of scheduling
    decisions ([label]): which goroutine takes its next step, which call
    to a collaborator returns, or that the operating system delivers an
    interrupt. *)

From Stdlib Require Import ZArith String Ascii DecimalString Lia.
From stdpp Require Import base list strings.

Local Open Scope string_scope.
Local Open Scope nat_scope.

(** ** Data *)

(** Go's [error]; only its message is ever used (it is printed or returned). *)
Definition Error := string.

(** [os.Signal]: the two signals registered on line 85. *)
Inductive Signal := SIGINT | SIGTERM.

(** Command-line flags ([flaghelpers]); only passed on to the helpers. *)
Record InputPairFlag := { ipf_Name : string; ipf_Path : string }.
Record OutputPairFlag := { opf_Name : string; opf_Path : string }.
Record JobFlag := { PipelineName : string; JobName : string }.

Record ExecuteCommand := {
  TaskConfig : string;
  Privileged : bool;
  ExcludeIgnored : bool;
  Inputs : list InputPairFlag;
  InputsFrom : JobFlag;
  Outputs : list OutputPairFlag;
  Tags : list string
}.

(** [atc.TaskConfig]: [Execute] reads its [Inputs] and [Outputs] fields and
    hands the whole value to [CreateBuild]. *)
Record TaskInputConfig := { tic_Name : string; tic_Path : string }.
Record TaskOutputConfig := { toc_Name : string; toc_Path : string }.
Record AtcTaskConfig := {
  tc_Inputs : list TaskInputConfig;
  tc_Outputs : list TaskOutputConfig
}.

(** [executehelpers.Input] and [executehelpers.Output]: [Execute] reads
    [Path] only. *)
Record Input := { in_Name : string; in_Path : string }.
Record Output := { out_Name : string; out_Path : string }.

(** [atc.Build]: [Execute] reads [ID] only. *)
Record Build := { ID : Z }.

(** Opaque handles. *)
Definition Client := nat.
Definition EventSource := nat.

(** [strconv.Itoa] and [fmt.Sprintf("%d", _)]. *)
Definition Itoa (n : Z) : string := NilZero.string_of_int (Z.to_int n).

Definition nl : string := String (ascii_of_nat 10) EmptyString.

(** Modelled from the spec: [eventstream.Render] is not part of
    commands/execute.go; only its call on line 116 is.  The spec gives its
    result as "an integer exit status representing the remote task's
    outcome (0 = success, non-zero = task-level failure)": every integer is
    a possible result, and every non-zero one a task-level failure. *)
Definition task_exit_status : Type := Z.

(** ** The collaborators

    Everything [Execute] calls outside this file.  A Go result [(T, error)]
    is a sum, a lone [error] an option.  [Upload] and [Download] are called
    as statements: whatever they report is dropped by the caller, the
    boolean records whether the transfer worked. *)
Record World := {
  Fly_Target : string;
  TargetClient : string -> Error + Client;
  ValidateClient : Client -> string -> bool -> option Error;
  LoadTaskConfig : string -> list string -> Error + AtcTaskConfig;
  DetermineInputs :
    Client -> list TaskInputConfig -> list InputPairFlag -> JobFlag ->
    Error + list Input;
  DetermineOutputs :
    Client -> list TaskOutputConfig -> list OutputPairFlag ->
    Error + list Output;
  CreateBuild :
    Client -> bool -> list Input -> list Output -> AtcTaskConfig ->
    list string -> string -> Error + Build;
  Upload : Client -> Input -> bool -> bool;
  Download : Client -> Output -> bool;
  BuildEvents : Client -> string -> Error + EventSource;
  AbortBuild : Client -> string -> option Error;
  Render : EventSource -> task_exit_status
}.

(** The same world with other transfer outcomes. *)
Definition with_transfers (w : World)
    (up : Client -> Input -> bool -> bool) (down : Client -> Output -> bool)
  : World :=
  {| Fly_Target := Fly_Target w;
     TargetClient := TargetClient w;
     ValidateClient := ValidateClient w;
     LoadTaskConfig := LoadTaskConfig w;
     DetermineInputs := DetermineInputs w;
     DetermineOutputs := DetermineOutputs w;
     CreateBuild := CreateBuild w;
     Upload := up;
     Download := down;
     BuildEvents := BuildEvents w;
     AbortBuild := AbortBuild w;
     Render := Render w |}.

(** ** The prelude, lines 30-77 *)

Module ErrorMonad.
Definition bind {A B} (m : Error + A) (k : A -> Error + B) : Error + B :=
  match m with
  | inl err => inl err
  | inr a => k a
  end.

(** [err = f(...); if err != nil { return err }] *)
Definition check (r : option Error) : Error + unit :=
  match r with
  | Some err => inl err
  | None => inr tt
  end.

Notation "'call' x := m 'in' k" := (bind m (fun x => k))
  (at level 10, x pattern, m at level 100, k at level 200).
End ErrorMonad.

(** What the prelude leaves in scope for the rest of [Execute]. *)
Record Resolved := {
  client : Client;
  excludeIgnored : bool;
  inputs : list Input;
  outputs : list Output;
  build : Build
}.

Import ErrorMonad.

Definition prelude (w : World) (command : ExecuteCommand) (args : list string)
  : Error + Resolved :=
  call client := TargetClient w (Fly_Target w) in
  call _ := check (ValidateClient w client (Fly_Target w) false) in
  let taskConfigFile := TaskConfig command in
  let excludeIgnored := ExcludeIgnored command in
  call taskConfig := LoadTaskConfig w taskConfigFile args in
  call inputs := DetermineInputs w client (tc_Inputs taskConfig)
                  (Inputs command) (InputsFrom command) in
  call outputs := DetermineOutputs w client (tc_Outputs taskConfig)
                   (Outputs command) in
  call build := CreateBuild w client (Privileged command) inputs outputs
                 taskConfig (Tags command) (Fly_Target w) in
  inr {| client := client; excludeIgnored := excludeIgnored;
         inputs := inputs; outputs := outputs; build := build |}.

(** ** Goroutines *)

(** The main goroutine from line 79 on.  Loop heads carry the index and the
    part of the slice still to be ranged over.  At [MReturned] the method
    has returned its error; what the caller does with it is not in this
    file, and the other goroutines go on running. *)
Inductive main_pc :=
| M79                                           (* fmt.Println("executing build", ..) *)
| M81                                           (* terminate := make(chan os.Signal, 1) *)
| M83                                           (* go abortOnSignal(..) *)
| M85                                           (* signal.Notify(..) *)
| M87                                           (* inputChan := make(..) *)
| M88                                           (* go func() { .. }() *)
| M98                                           (* if len(outputs) > 0 *)
| M99 (i : nat) (rest : list Output)            (* for i, output := range outputs *)
| M100 (i : nat) (output : Output) (rest : list Output)  (* append(outputChans, make(..)) *)
| M101 (i : nat) (output : Output) (rest : list Output)  (* go func(..){..}(output, outputChans[i]) *)
| M111                                          (* client.BuildEvents(..): call *)
| M111_wait                                     (* .. the call is in flight *)
| M112 (r : Error + EventSource)                (* if err != nil *)
| M116 (eventSource : EventSource)              (* eventstream.Render(..): call *)
| M116_wait (eventSource : EventSource)         (* .. rendering *)
| M117 (eventSource : EventSource) (exitCode : Z)  (* eventSource.Close() *)
| M119 (exitCode : Z)                           (* <-inputChan *)
| M121 (exitCode : Z)                           (* if len(outputs) > 0 *)
| M122 (exitCode : Z) (k : nat)                 (* for _, outputChan := range outputChans *)
| M123 (exitCode : Z) (k : nat)                 (* <-outputChan *)
| M127 (exitCode : Z)                           (* os.Exit(exitCode) *)
| MReturned (err : Error).                      (* return err, line 113 *)

(** [abortOnSignal]. *)
Inductive watcher_pc :=
| W137                                          (* <-terminate *)
| W139                                          (* Fprintf "aborting..." *)
| W141                                          (* client.AbortBuild(..): call *)
| W141_wait                                     (* .. the call is in flight *)
| W142 (err : option Error)                     (* if err != nil *)
| W143 (err : Error)                            (* Fprintln "failed to abort:" *)
| W144                                          (* return *)
| W148                                          (* <-terminate *)
| W149                                          (* Fprintln "exiting immediately" *)
| W150                                          (* os.Exit(2) *)
| WReturned.

(** The goroutine of lines 88-95. *)
Inductive uploader_pc :=
| I89 (k : nat) (rest : list Input)             (* for _, i := range inputs *)
| I90 (k : nat) (i : Input) (rest : list Input) (* if i.Path != "" *)
| I91 (k : nat) (i : Input) (rest : list Input) (* executehelpers.Upload(..): call *)
| I91_wait (k : nat) (i : Input) (rest : list Input)  (* .. in progress *)
| I94                                           (* close(inputChan) *)
| IDone.

(** The goroutines of lines 101-107; [dl_chan] is the index of the
    [outputChan] argument in [outputChans]. *)
Inductive downloader_pc :=
| O102                                          (* if o.Path != "" *)
| O103                                          (* executehelpers.Download(..): call *)
| O103_wait                                     (* .. in progress *)
| O106                                          (* close(outputChan) *)
| ODone.

Record downloader := {
  dl_o : Output;
  dl_chan : nat;
  dl_pc : downloader_pc
}.

Definition set_pc (d : downloader) (pc : downloader_pc) : downloader :=
  {| dl_o := dl_o d; dl_chan := dl_chan d; dl_pc := pc |}.

(** A channel nobody sends on: receiving blocks until it is closed. *)
Inductive chan_state := Open | Closed.

Inductive stream := Stdout | Stderr.

(** What a run does, as seen from outside the goroutines.  Transfers are
    named by the position of their binding. *)
Inductive action :=
| AInterrupt (sig : Signal) (buffered : bool)
| APrint (fd : stream) (msg : string)
| AGoWatcher
| ANotify
| AGoUploader
| AGoDownloader (k : nat)
| AUploadCall (k : nat)
| AUploadDone (k : nat) (ok : bool)
| ADownloadCall (k : nat)
| ADownloadDone (k : nat) (ok : bool)
| ACloseInputChan
| ACloseOutputChan (k : nat)
| ARecvInputChan
| ARecvOutputChan (k : nat)
| ABuildEventsCall (id : string)
| ABuildEventsDone (ok : bool)
| ARenderCall
| ARenderDone (exitCode : Z)
| ACloseEventSource
| ARecvTerminate
| AAbortCall (id : string)
| AAbortDone (err : option Error)
| AMainExit (code : Z)
| AWatcherExit (code : Z)
| AReturn (err : Error).

Inductive proc_status :=
| Running
| Exited (code : Z)          (* os.Exit *)
| Killed (sig : Signal).     (* an interrupt before signal.Notify: the
                                runtime's default action ends the process *)

Record state := {
  proc : proc_status;
  main : main_pc;
  watcher : option watcher_pc;
  uploader : option uploader_pc;
  downloaders : list downloader;
  notified : bool;
  terminate : list Signal;             (* buffer of capacity 1 *)
  inputChan : chan_state;
  outputChans : list chan_state;
  log : list action                    (* most recent first *)
}.

Definition init : state :=
  {| proc := Running; main := M79; watcher := None; uploader := None;
     downloaders := []; notified := false; terminate := [];
     inputChan := Open; outputChans := []; log := [] |}.

(** ** Steps *)

Definition emit (a : action) (s : state) : state :=
  {| proc := proc s; main := main s; watcher := watcher s;
     uploader := uploader s; downloaders := downloaders s; notified := notified s;
     terminate := terminate s; inputChan := inputChan s; outputChans := outputChans s;
     log := a :: log s |}.

Definition set_proc (p : proc_status) (s : state) : state :=
  {| proc := p; main := main s; watcher := watcher s;
     uploader := uploader s; downloaders := downloaders s; notified := notified s;
     terminate := terminate s; inputChan := inputChan s; outputChans := outputChans s;
     log := log s |}.

Definition goto_main (pc : main_pc) (s : state) : state :=
  {| proc := proc s; main := pc; watcher := watcher s;
     uploader := uploader s; downloaders := downloaders s; notified := notified s;
     terminate := terminate s; inputChan := inputChan s; outputChans := outputChans s;
     log := log s |}.

Definition goto_watcher (pc : watcher_pc) (s : state) : state :=
  {| proc := proc s; main := main s; watcher := Some pc;
     uploader := uploader s; downloaders := downloaders s; notified := notified s;
     terminate := terminate s; inputChan := inputChan s; outputChans := outputChans s;
     log := log s |}.

Definition goto_uploader (pc : uploader_pc) (s : state) : state :=
  {| proc := proc s; main := main s; watcher := watcher s;
     uploader := Some pc; downloaders := downloaders s; notified := notified s;
     terminate := terminate s; inputChan := inputChan s; outputChans := outputChans s;
     log := log s |}.

Definition set_downloaders (ds : list downloader) (s : state) : state :=
  {| proc := proc s; main := main s; watcher := watcher s;
     uploader := uploader s; downloaders := ds; notified := notified s;
     terminate := terminate s; inputChan := inputChan s; outputChans := outputChans s;
     log := log s |}.

Definition set_notified (b : bool) (s : state) : state :=
  {| proc := proc s; main := main s; watcher := watcher s;
     uploader := uploader s; downloaders := downloaders s; notified := b;
     terminate := terminate s; inputChan := inputChan s; outputChans := outputChans s;
     log := log s |}.

Definition set_terminate (q : list Signal) (s : state) : state :=
  {| proc := proc s; main := main s; watcher := watcher s;
     uploader := uploader s; downloaders := downloaders s; notified := notified s;
     terminate := q; inputChan := inputChan s; outputChans := outputChans s;
     log := log s |}.

Definition set_inputChan (c : chan_state) (s : state) : state :=
  {| proc := proc s; main := main s; watcher := watcher s;
     uploader := uploader s; downloaders := downloaders s; notified := notified s;
     terminate := terminate s; inputChan := c; outputChans := outputChans s;
     log := log s |}.

Definition set_outputChans (cs : list chan_state) (s : state) : state :=
  {| proc := proc s; main := main s; watcher := watcher s;
     uploader := uploader s; downloaders := downloaders s; notified := notified s;
     terminate := terminate s; inputChan := inputChan s; outputChans := cs;
     log := log s |}.

(** ** Scheduling

    A run is driven from outside: the operating system delivers a signal, a
    goroutine takes its next step, or the collaborator call a goroutine is
    waiting in returns. *)
Inductive goroutine := Main | Watcher | Uploader | Downloader (k : nat).

Inductive label :=
| Interrupt (sig : Signal)
| Run (g : goroutine)
| Return (g : goroutine).

(** The exit code of line 150. *)
Definition forced_exit_code : Z := 2.

(** What is printed: line 79 on standard output, lines 139, 143 and 149 on
    standard error. *)
Definition build_line (id : string) : action :=
  APrint Stdout ("executing build " ++ id ++ nl).
Definition aborting_line : action :=
  APrint Stderr (nl ++ "aborting..." ++ nl).
Definition failure_line (err : Error) : action :=
  APrint Stderr ("failed to abort: " ++ err ++ nl).
Definition exiting_line : action :=
  APrint Stderr ("exiting immediately" ++ nl).

Section Steps.
Variable w : World.
Variable r : Resolved.

Definition build_id : string := Itoa (ID (build r)).

(** [len(outputs) > 0], lines 98 and 121. *)
Definition has_outputs : bool := 0 <? length (outputs r).

Definition is_ok {A} (x : Error + A) : bool :=
  match x with inl _ => false | inr _ => true end.

(** [Execute] from line 79, one step at a time. *)
Definition step_main (s : state) : state :=
  match main s with
  | M79 =>
      goto_main M81 (emit (build_line build_id) s)
  | M81 => goto_main M83 (set_terminate [] s)
  | M83 => goto_main M85 (emit AGoWatcher (goto_watcher W137 s))
  | M85 => goto_main M87 (emit ANotify (set_notified true s))
  | M87 => goto_main M88 (set_inputChan Open s)
  | M88 =>
      goto_main M98 (emit AGoUploader (goto_uploader (I89 0 (inputs r)) s))
  | M98 =>
      if has_outputs then goto_main (M99 0 (outputs r)) s
      else goto_main M111 s
  | M99 i [] => goto_main M111 s
  | M99 i (output :: rest) => goto_main (M100 i output rest) s
  | M100 i output rest =>
      goto_main (M101 i output rest)
        (set_outputChans (outputChans s ++ [Open]) s)
  | M101 i output rest =>
      goto_main (M99 (S i) rest)
        (emit (AGoDownloader i)
           (set_downloaders
              (downloaders s ++
               [{| dl_o := output; dl_chan := i; dl_pc := O102 |}]) s))
  | M111 => goto_main M111_wait (emit (ABuildEventsCall build_id) s)
  | M111_wait => s
  | M112 (inl err) => goto_main (MReturned err) (emit (AReturn err) s)
  | M112 (inr eventSource) => goto_main (M116 eventSource) s
  | M116 eventSource => goto_main (M116_wait eventSource) (emit ARenderCall s)
  | M116_wait _ => s
  | M117 eventSource exitCode =>
      goto_main (M119 exitCode) (emit ACloseEventSource s)
  | M119 exitCode =>
      match inputChan s with
      | Closed => goto_main (M121 exitCode) (emit ARecvInputChan s)
      | Open => s
      end
  | M121 exitCode =>
      if has_outputs then goto_main (M122 exitCode 0) s
      else goto_main (M127 exitCode) s
  | M122 exitCode k =>
      if k <? length (outputChans s)
      then goto_main (M123 exitCode k) s
      else goto_main (M127 exitCode) s
  | M123 exitCode k =>
      match outputChans s !! k with
      | Some Closed =>
          goto_main (M122 exitCode (S k)) (emit (ARecvOutputChan k) s)
      | _ => s
      end
  | M127 exitCode =>
      set_proc (Exited exitCode) (emit (AMainExit exitCode) s)
  | MReturned _ => s
  end.

(** [client.BuildEvents] or [eventstream.Render] returns.  Of [Render]
    the run keeps the exit code; what it writes to the [os.Stdout] it is
    handed on line 116 is [Render]'s own effect and is not part of the log:
    an [APrint] stands for a print statement of execute.go itself. *)
Definition return_main (s : state) : state :=
  match main s with
  | M111_wait =>
      let res := BuildEvents w (client r) build_id in
      goto_main (M112 res) (emit (ABuildEventsDone (is_ok res)) s)
  | M116_wait eventSource =>
      let exitCode := Render w eventSource in
      goto_main (M117 eventSource exitCode) (emit (ARenderDone exitCode) s)
  | _ => s
  end.

(** [<-terminate]: blocks while the buffer is empty. *)
Definition recv_terminate (next : watcher_pc) (s : state) : state :=
  match terminate s with
  | [] => s
  | _ :: q => goto_watcher next (emit ARecvTerminate (set_terminate q s))
  end.

(** The goroutine started on line 83, one step at a time. *)
Definition abortOnSignal (s : state) : state :=
  match watcher s with
  | None => s
  | Some W137 => recv_terminate W139 s
  | Some W139 =>
      goto_watcher W141 (emit aborting_line s)
  | Some W141 => goto_watcher W141_wait (emit (AAbortCall build_id) s)
  | Some W141_wait => s
  | Some (W142 (Some err)) => goto_watcher (W143 err) s
  | Some (W142 None) => goto_watcher W148 s
  | Some (W143 err) =>
      goto_watcher W144 (emit (failure_line err) s)
  | Some W144 => goto_watcher WReturned s
  | Some W148 => recv_terminate W149 s
  | Some W149 =>
      goto_watcher W150 (emit exiting_line s)
  | Some W150 =>
      set_proc (Exited forced_exit_code)
        (emit (AWatcherExit forced_exit_code) s)
  | Some WReturned => s
  end.

(** [client.AbortBuild] returns. *)
Definition abortOnSignal_return (s : state) : state :=
  match watcher s with
  | Some W141_wait =>
      let err := AbortBuild w (client r) build_id in
      goto_watcher (W142 err) (emit (AAbortDone err) s)
  | _ => s
  end.

(** The goroutine of lines 88-95, one step at a time. *)
Definition step_uploader (s : state) : state :=
  match uploader s with
  | None => s
  | Some (I89 k []) => goto_uploader I94 s
  | Some (I89 k (i :: rest)) => goto_uploader (I90 k i rest) s
  | Some (I90 k i rest) =>
      if negb (String.eqb (in_Path i) "")
      then goto_uploader (I91 k i rest) s
      else goto_uploader (I89 (S k) rest) s
  | Some (I91 k i rest) =>
      goto_uploader (I91_wait k i rest) (emit (AUploadCall k) s)
  | Some (I91_wait _ _ _) => s
  | Some I94 =>
      goto_uploader IDone (emit ACloseInputChan (set_inputChan Closed s))
  | Some IDone => s
  end.

Definition return_uploader (s : state) : state :=
  match uploader s with
  | Some (I91_wait k i rest) =>
      goto_uploader (I89 (S k) rest)
        (emit (AUploadDone k (Upload w (client r) i (excludeIgnored r))) s)
  | _ => s
  end.

Definition goto_downloader (k : nat) (d : downloader) (pc : downloader_pc)
    (s : state) : state :=
  set_downloaders (<[k := set_pc d pc]> (downloaders s)) s.

(** The [k]-th goroutine of lines 101-107, one step at a time. *)
Definition step_downloader (k : nat) (s : state) : state :=
  match downloaders s !! k with
  | None => s
  | Some d =>
      match dl_pc d with
      | O102 =>
          if negb (String.eqb (out_Path (dl_o d)) "")
          then goto_downloader k d O103 s
          else goto_downloader k d O106 s
      | O103 =>
          goto_downloader k d O103_wait (emit (ADownloadCall (dl_chan d)) s)
      | O103_wait => s
      | O106 =>
          goto_downloader k d ODone
            (emit (ACloseOutputChan (dl_chan d))
               (set_outputChans (<[dl_chan d := Closed]> (outputChans s)) s))
      | ODone => s
      end
  end.

Definition return_downloader (k : nat) (s : state) : state :=
  match downloaders s !! k with
  | Some d =>
      match dl_pc d with
      | O103_wait =>
          goto_downloader k d O106
            (emit (ADownloadDone (dl_chan d) (Download w (client r) (dl_o d)))
               s)
      | _ => s
      end
  | None => s
  end.

(** [signal.Notify] never blocks: a signal that finds the buffer of
    [terminate] full is dropped. *)
Definition step_interrupt (sig : Signal) (s : state) : state :=
  if notified s then
    if length (terminate s) <? 1
    then emit (AInterrupt sig true) (set_terminate (terminate s ++ [sig]) s)
    else emit (AInterrupt sig false) s
  else set_proc (Killed sig) (emit (AInterrupt sig false) s).

(** One scheduling decision.  A goroutine that is blocked, has finished
    or does not exist yet makes no progress, a [Return] for a goroutine
    that is not in a call does nothing, and after the process has ended
    nothing runs. *)
Definition step (l : label) (s : state) : state :=
  match proc s with
  | Running =>
      match l with
      | Interrupt sig => step_interrupt sig s
      | Run Main => step_main s
      | Run Watcher => abortOnSignal s
      | Run Uploader => step_uploader s
      | Run (Downloader k) => step_downloader k s
      | Return Main => return_main s
      | Return Watcher => abortOnSignal_return s
      | Return Uploader => return_uploader s
      | Return (Downloader k) => return_downloader k s
      end
  | _ => s
  end.

Fixpoint run (sched : list label) (s : state) : state :=
  match sched with
  | [] => s
  | l :: sched' => run sched' (step l s)
  end.
End Steps.

(** The state [Execute] leaves when it returns from the prelude. *)
Definition returned (err : Error) : state :=
  goto_main (MReturned err) (emit (AReturn err) init).

(** [Execute] under a schedule. *)
Definition Execute (w : World) (command : ExecuteCommand) (args : list string)
    (sched : list label) : state :=
  match prelude w command args with
  | inl err => returned err
  | inr r => run w r sched init
  end.

(** ** Reading a log *)

Local Open Scope list_scope.

Fixpoint count (p : action -> bool) (l : list action) : nat :=
  match l with
  | [] => 0
  | a :: l' => (if p a then 1 else 0) + count p l'
  end.

Definition is_abort_call (a : action) : bool :=
  match a with AAbortCall _ => true | _ => false end.

Definition is_recv_terminate (a : action) : bool :=
  match a with ARecvTerminate => true | _ => false end.

Definition is_watcher_exit (a : action) : bool :=
  match a with AWatcherExit _ => true | _ => false end.

Definition is_close_input (a : action) : bool :=
  match a with ACloseInputChan => true | _ => false end.

Definition is_close_output (k : nat) (a : action) : bool :=
  match a with ACloseOutputChan k' => Nat.eqb k' k | _ => false end.

Definition is_output_action (a : action) : bool :=
  match a with
  | AGoDownloader _ | ADownloadCall _ | ADownloadDone _ _
  | ACloseOutputChan _ | ARecvOutputChan _ => true
  | _ => false
  end.

(** What the main goroutine does once it holds an event source. *)
Definition is_after_feed (a : action) : bool :=
  match a with
  | ARenderCall | ARenderDone _ | ACloseEventSource
  | ARecvInputChan | ARecvOutputChan _ | AMainExit _ => true
  | _ => false
  end.

(** What the signal path leaves in the log: deliveries, and everything
    [abortOnSignal] does (it alone writes to standard error). *)
Definition is_signal_path (a : action) : bool :=
  match a with
  | AInterrupt _ _ | ARecvTerminate | AAbortCall _ | AAbortDone _
  | AWatcherExit _ | APrint Stderr _ => true
  | _ => false
  end.

Definition is_upload (a : action) : bool :=
  match a with AUploadCall _ | AUploadDone _ _ => true | _ => false end.

(** The actions of a log that satisfy [p], oldest first. *)
Fixpoint select (p : action -> bool) (lg : list action) : list action :=
  match lg with
  | [] => []
  | a :: lg' => select p lg' ++ (if p a then [a] else [])
  end.

(** Every [b] in the log has an [a] that happened earlier. *)
Definition before (a b : action) (lg : list action) : Prop :=
  forall later earlier, lg = later ++ b :: earlier -> In a earlier.

Lemma before_nil a b : before a b [].
Proof. intros [|? ?] earlier H; discriminate. Qed.

Lemma before_cons a b x lg :
  before a b lg -> (x = b -> In a lg) -> before a b (x :: lg).
Proof.
  intros Hlg Hx [|y later] earlier H; simpl in H; simplify_eq.
  - auto.
  - eapply Hlg; eauto.
Qed.

Lemma count_In p a lg : In a lg -> p a = true -> 1 <= count p lg.
Proof.
  induction lg as [|x lg IH]; simpl; [tauto|].
  intros [-> | H] Hp; [rewrite Hp; lia | specialize (IH H Hp); lia].
Qed.

Lemma count_zero_not_In p a lg : count p lg = 0 -> p a = true -> ~ In a lg.
Proof. intros H0 Hp Hin. pose proof (count_In p a lg Hin Hp). lia. Qed.

(** ** Runs *)

Arguments set_pc : simpl never.
Arguments build_line : simpl never.
Arguments failure_line : simpl never.

Lemma run_cons w r l sched s :
  run w r (l :: sched) s = run w r sched (step w r l s).
Proof. reflexivity. Qed.

Lemma run_nil w r s : run w r [] s = s.
Proof. reflexivity. Qed.

(** Run a schedule on a state whose fields are known, one step at a time;
    stops at a step whose outcome hangs on a test that is still open. *)
Ltac step1 :=
  match goal with
  | |- context [run _ _ (_ :: _) (Build_state _ _ _ _ _ _ _ _ _ _)] =>
      rewrite run_cons;
      cbv [step step_interrupt step_main return_main abortOnSignal
           abortOnSignal_return step_uploader return_uploader recv_terminate
           emit set_proc goto_main goto_watcher goto_uploader
           set_downloaders set_notified set_terminate set_inputChan
           set_outputChans proc main watcher uploader downloaders notified
           terminate inputChan outputChans log]
  end.

Ltac exec :=
  cbn [repeat]; repeat (step1; cbn [length Nat.ltb Nat.leb]);
  rewrite ?run_nil.

Ltac step_cases :=
  unfold step, step_interrupt, step_main, return_main, abortOnSignal,
    abortOnSignal_return, step_uploader, return_uploader, step_downloader,
    return_downloader, recv_terminate, goto_downloader in *;
  repeat match goal with
    | |- context [match ?x with _ => _ end] => destruct x eqn:?
    | |- context [if ?b then _ else _] => destruct b eqn:?
    end;
  simpl in *.

Ltac finish :=
  subst; simpl in *;
  try solve [intuition (subst; simpl in *; try congruence; try lia)].

(** Facts about what a log contains: split the hypotheses and feed the
    memberships to the invariants at hand. *)
Ltac in_log :=
  repeat match goal with
    | H : _ /\ _ |- _ => destruct H
    | H : _ \/ _ |- _ => destruct H
    | H : In _ ?lg, Hinv : forall c, In _ ?lg -> _ |- _ => apply Hinv in H
    end;
  subst; try discriminate; try congruence.

(** Invariants are guarded by the program counter: once the counter is
    known, discharge the guards that hold and drop those that cannot. *)
Ltac feed_refl :=
  repeat match goal with
    | H : ?x = ?x -> _ |- _ => specialize (H eq_refl)
    | H : false = true -> _ |- _ => clear H
    | H : forall a b c, Some (?x, ?y, ?z) = Some (a, b, c) -> _ |- _ =>
        specialize (H _ _ _ eq_refl)
    | H : forall a b c, None = Some _ -> _ |- _ => clear H
    | H : forall a, Some ?x = Some a -> _ |- _ => specialize (H _ eq_refl)
    | H : forall a, None = Some a -> _ |- _ => clear H
    | H : _ /\ _ |- _ => destruct H
    end.

Ltac split4 := split; [|split; [|split]].

Section Runs.
Variable w : World.
Variable r : Resolved.

Lemma run_app (sched1 sched2 : list label) (s : state) :
  run w r (sched1 ++ sched2) s = run w r sched2 (run w r sched1 s).
Proof.
  revert s; induction sched1 as [|l sched1 IH]; intros s; simpl; auto.
Qed.

Lemma run_preserves (P : state -> Prop) :
  (forall l s, P s -> P (step w r l s)) ->
  forall sched s, P s -> P (run w r sched s).
Proof.
  intros Hstep sched; induction sched as [|l sched IH]; intros s Hs;
    simpl; auto.
Qed.

Lemma run_invariant (P : state -> Prop) :
  P init ->
  (forall l s, P s -> P (step w r l s)) ->
  forall sched, P (run w r sched init).
Proof. intros H0 Hstep sched. apply run_preserves; auto. Qed.

(** *** The watcher is started once and calls [AbortBuild] once *)

Definition before_go_watcher (pc : main_pc) : bool :=
  match pc with M79 | M81 | M83 => true | _ => false end.

Definition aborts_issued (pc : option watcher_pc) : nat :=
  match pc with
  | None | Some W137 | Some W139 | Some W141 => 0
  | _ => 1
  end.

Definition abort_inv (s : state) : Prop :=
  count is_abort_call (log s) = aborts_issued (watcher s) /\
  (before_go_watcher (main s) = true -> watcher s = None).

Lemma abort_inv_step l s : abort_inv s -> abort_inv (step w r l s).
Proof.
  unfold abort_inv. destruct s as [p m wt u ds n t ic oc lg]; simpl.
  intros [Hc Hm]. step_cases; finish.
Qed.

Lemma abort_inv_run sched : abort_inv (run w r sched init).
Proof.
  apply run_invariant; [|apply abort_inv_step].
  unfold abort_inv; simpl; auto.
Qed.

(** *** Where an exit code comes from *)

Definition code_of (pc : main_pc) : option Z :=
  match pc with
  | M117 _ c | M119 c | M121 c | M122 c _ | M123 c _ | M127 c => Some c
  | _ => None
  end.

Definition feed_of (pc : main_pc) : option EventSource :=
  match pc with
  | M112 (inr es) | M116 es | M116_wait es | M117 es _ => Some es
  | _ => None
  end.

Definition exit_inv (s : state) : Prop :=
  (forall x, main s = M112 x -> x = BuildEvents w (client r) (build_id r)) /\
  (forall es, feed_of (main s) = Some es ->
     BuildEvents w (client r) (build_id r) = inr es) /\
  (forall c, code_of (main s) = Some c ->
     exists es, BuildEvents w (client r) (build_id r) = inr es /\
                c = Render w es) /\
  (forall c, proc s = Exited c ->
     (main s = M127 c /\ In (AMainExit c) (log s)) \/
     (c = forced_exit_code /\ watcher s = Some W150 /\
      In (AWatcherExit c) (log s))) /\
  (forall c, In (AMainExit c) (log s) -> proc s = Exited c /\ main s = M127 c) /\
  (forall c, In (AWatcherExit c) (log s) ->
     proc s = Exited c /\ c = forced_exit_code).

Lemma exit_inv_init : exit_inv init.
Proof. unfold exit_inv; simpl; intuition congruence. Qed.

Lemma exit_inv_step l s : exit_inv s -> exit_inv (step w r l s).
Proof.
  unfold exit_inv. destruct s as [p m wt u ds n t ic oc lg]; simpl.
  intros (Hx & Hes & Hc & Hp & Hm & Hw).
  step_cases; subst; simpl in *.
  all: repeat split; intros; simpl in *.
  all: try discriminate.
  all: try solve [eauto].
  all: try solve [in_log; eauto 6].
  all: simplify_eq; try solve [left; auto | right; auto].
  all: try (symmetry; apply Hx; reflexivity).
  all: try (eexists; split; [apply Hes; reflexivity | reflexivity]).
  destruct (BuildEvents w (client r) (build_id r)); congruence.
Qed.

Lemma exit_inv_run sched : exit_inv (run w r sched init).
Proof. apply run_invariant; [apply exit_inv_init | apply exit_inv_step]. Qed.

(** *** Runs without an interrupt *)

Definition is_interrupt (l : label) : bool :=
  match l with Interrupt _ => true | _ => false end.

Definition no_interrupt (sched : list label) : bool :=
  forallb (fun l => negb (is_interrupt l)) sched.

Definition quiet_inv (s : state) : Prop :=
  terminate s = [] /\
  (watcher s = None \/ watcher s = Some W137) /\
  (forall sig, proc s <> Killed sig).

Lemma quiet_inv_step l s :
  is_interrupt l = false -> quiet_inv s -> quiet_inv (step w r l s).
Proof.
  unfold quiet_inv. destruct s as [p m wt u ds n t ic oc lg]; simpl.
  intros Hl (Ht & Hw & Hk). step_cases; finish.
Qed.

Lemma quiet_inv_run sched :
  no_interrupt sched = true -> quiet_inv (run w r sched init).
Proof.
  assert (G : forall s, quiet_inv s -> no_interrupt sched = true ->
                        quiet_inv (run w r sched s)).
  { induction sched as [|l sched IH]; intros s Hs Hq; simpl; auto.
    simpl in Hq. apply andb_prop in Hq as [Hl Hq].
    apply IH; auto. apply quiet_inv_step; auto.
    destruct (is_interrupt l); simpl in *; congruence. }
  apply G. unfold quiet_inv; simpl; intuition congruence.
Qed.

Lemma exit_code_without_interrupt sched c :
  no_interrupt sched = true ->
  proc (run w r sched init) = Exited c ->
  exists es, BuildEvents w (client r) (build_id r) = inr es /\
             c = Render w es.
Proof.
  intros Hq Hp.
  destruct (quiet_inv_run sched Hq) as (_ & Hw & _).
  destruct (exit_inv_run sched) as (_ & _ & Hc & Hex & _).
  destruct (Hex c Hp) as [[Hm _] | (_ & Hw' & _)].
  - apply Hc. rewrite Hm. reflexivity.
  - destruct Hw as [Hw | Hw]; congruence.
Qed.


(** *** The download goroutines and their channels *)

Definition before_spawn (pc : main_pc) : bool :=
  match pc with
  | M79 | M81 | M83 | M85 | M87 | M88 | M98 => true
  | _ => false
  end.

(** Inside the loop of lines 99-108: how many goroutines have been
    started, what is left of [outputs], how many channels exist. *)
Definition spawning (pc : main_pc) : option (nat * list Output * nat) :=
  match pc with
  | M99 i rest => Some (i, rest, i)
  | M100 i o rest => Some (i, o :: rest, i)
  | M101 i o rest => Some (i, o :: rest, S i)
  | _ => None
  end.

Definition after_spawn (pc : main_pc) : bool :=
  match pc with
  | M79 | M81 | M83 | M85 | M87 | M88 | M98
  | M99 _ _ | M100 _ _ _ | M101 _ _ _ => false
  | _ => true
  end.

(** Goroutine [k] serves [outputs[k]] and owns channel [k]; a channel is
    closed only by a goroutine that has finished; a download is only
    called for a binding with a path. *)
Definition pool_ok (ds : list downloader) (oc : list chan_state) : Prop :=
  (forall k d, ds !! k = Some d ->
     dl_chan d = k /\ outputs r !! k = Some (dl_o d) /\
     (dl_pc d = O103 \/ dl_pc d = O103_wait ->
      String.eqb (out_Path (dl_o d)) "" = false)) /\
  (forall k, oc !! k = Some Closed ->
     exists d, ds !! k = Some d /\ dl_pc d = ODone).

Lemma pool_ok_nil : pool_ok [] [].
Proof. split; intros k; rewrite lookup_nil; discriminate. Qed.

Lemma pool_ok_make ds oc : pool_ok ds oc -> pool_ok ds (oc ++ [Open]).
Proof.
  intros [Hd Hc]; split; auto.
  intros k Hk. apply lookup_snoc_Some in Hk as [[_ Hk] | [_ Hk]]; auto.
  discriminate.
Qed.

Lemma pool_ok_go ds oc o :
  pool_ok ds oc -> outputs r !! length ds = Some o ->
  pool_ok (ds ++ [{| dl_o := o; dl_chan := length ds; dl_pc := O102 |}]) oc.
Proof.
  intros [Hd Hc] Ho; split.
  - intros k d Hk. apply lookup_snoc_Some in Hk as [[_ Hk] | [-> <-]]; auto.
    simpl. repeat split; auto. intros [?|?]; discriminate.
  - intros k Hk. destruct (Hc k Hk) as (d & Hk' & Hpc).
    exists d. split; auto. apply lookup_app_l_Some; auto.
Qed.

Lemma pool_ok_goto ds oc k d pc :
  pool_ok ds oc -> ds !! k = Some d -> dl_pc d <> ODone ->
  (pc = O103 \/ pc = O103_wait ->
   String.eqb (out_Path (dl_o d)) "" = false) ->
  pool_ok (<[k := set_pc d pc]> ds) oc.
Proof.
  intros [Hd Hc] Hk Hnd Hpath; split.
  - intros k0 d0 Hk0.
    apply list_lookup_insert_Some in Hk0 as [(<- & <- & _) | [_ Hk0]]; auto.
    destruct (Hd k d Hk) as (? & ? & _). simpl. auto.
  - intros k0 Hk0. destruct (Hc k0 Hk0) as (d0 & Hd0 & Hpc).
    exists d0. split; auto.
    rewrite list_lookup_insert_ne; auto. intros ->. congruence.
Qed.

Lemma pool_ok_close ds oc k d :
  pool_ok ds oc -> ds !! k = Some d ->
  pool_ok (<[k := set_pc d ODone]> ds) (<[dl_chan d := Closed]> oc).
Proof.
  intros [Hd Hc] Hk. destruct (Hd k d Hk) as (Hch & Ho & _); split.
  - intros k0 d0 Hk0.
    apply list_lookup_insert_Some in Hk0 as [(<- & <- & _) | [_ Hk0]]; auto.
    simpl. repeat split; auto. intros [?|?]; discriminate.
  - intros k0 Hk0. rewrite Hch in Hk0.
    apply list_lookup_insert_Some in Hk0 as [(<- & _ & _) | [Hne Hk0]].
    + exists (set_pc d ODone). split; auto.
      apply list_lookup_insert_eq. eapply lookup_lt_Some; eauto.
    + destruct (Hc k0 Hk0) as (d0 & Hd0 & Hpc). exists d0. split; auto.
      rewrite list_lookup_insert_ne; auto.
Qed.

Definition dl_shape (s : state) : Prop :=
  (before_spawn (main s) = true ->
     length (downloaders s) = 0 /\ length (outputChans s) = 0) /\
  (forall i todo n, spawning (main s) = Some (i, todo, n) ->
     length (downloaders s) = i /\ drop i (outputs r) = todo /\
     i + length todo = length (outputs r) /\
     length (outputChans s) = n) /\
  (after_spawn (main s) = true ->
     length (downloaders s) = length (outputs r) /\
     length (outputChans s) = length (outputs r)) /\
  pool_ok (downloaders s) (outputChans s).

Lemma dl_shape_init : dl_shape init.
Proof.
  unfold dl_shape; simpl. repeat split; intros; try discriminate.
  all: rewrite lookup_nil in *; discriminate.
Qed.

Lemma drop_cons_inv {A} (l : list A) (i : nat) (x : A) (rest : list A) :
  drop i l = x :: rest -> l !! i = Some x /\ drop (S i) l = rest.
Proof.
  intros H.
  assert (Hx : l !! i = Some x).
  { replace i with (i + 0) by lia. rewrite <- lookup_drop, H. reflexivity. }
  split; auto. rewrite (drop_S _ _ _ Hx) in H. congruence.
Qed.

Lemma dl_shape_step l s : dl_shape s -> dl_shape (step w r l s).
Proof.
  unfold dl_shape. destruct s as [p m wt u ds n t ic oc lg]; simpl.
  intros (Hb & Hs & Ha & Hp).
  step_cases; subst; simpl in *.
  all: try solve [auto 10].
  all: rewrite ?length_insert.
  all: try solve [split4; auto; apply pool_ok_close; auto].
  all: try solve [split4; auto;
                  apply pool_ok_goto; auto; try congruence;
                  intros [?|?]; try discriminate;
                  destruct (String.eqb (out_Path (dl_o d)) ""); auto;
                  discriminate].
  all: feed_refl.
  all: try solve [split4; intros; simplify_eq; auto].
  all: try (unfold has_outputs in *;
            match goal with
            | H : (_ <? _) = false |- _ => apply Nat.ltb_ge in H
            | H : (_ <? _) = true |- _ => apply Nat.ltb_lt in H
            end).
  all: split4; intros; simplify_eq; rewrite ?length_app; simpl in *;
    auto using pool_ok_make; try lia.
  - repeat split; auto; lia.
  - match goal with H : drop _ _ = _ :: _ |- _ =>
      apply drop_cons_inv in H as [? ?] end.
    repeat split; auto; lia.
  - match goal with H : drop _ _ = _ :: _ |- _ =>
      apply drop_cons_inv in H as [? ?] end.
    apply pool_ok_go; auto.
  - apply pool_ok_goto; auto; try congruence.
    intros _. destruct Hp as [Hd _].
    match goal with H : ds !! _ = Some d |- _ =>
      destruct (Hd _ _ H) as (_ & _ & Hpath) end.
    auto.
Qed.

Lemma dl_shape_run sched : dl_shape (run w r sched init).
Proof. apply run_invariant; [apply dl_shape_init | apply dl_shape_step]. Qed.

(** *** The upload goroutine and the join on [inputChan] *)

Definition before_go_uploader (pc : main_pc) : bool :=
  match pc with
  | M79 | M81 | M83 | M85 | M87 | M88 => true
  | _ => false
  end.

Definition upload_of (k : nat) (i : Input) : list action :=
  [AUploadCall k; AUploadDone k (Upload w (client r) i (excludeIgnored r))].

(** What the loop of lines 89-93 does for the bindings [rest], the first
    of which has position [k]. *)
Fixpoint upload_actions (k : nat) (rest : list Input) : list action :=
  match rest with
  | [] => []
  | i :: rest' =>
      (if negb (String.eqb (in_Path i) "") then upload_of k i else []) ++
      upload_actions (S k) rest'
  end.

Definition pending (u : option uploader_pc) : list action :=
  match u with
  | None => upload_actions 0 (inputs r)
  | Some (I89 k rest) => upload_actions k rest
  | Some (I90 k i rest) => upload_actions k (i :: rest)
  | Some (I91 k i rest) => upload_of k i ++ upload_actions (S k) rest
  | Some (I91_wait k i rest) =>
      AUploadDone k (Upload w (client r) i (excludeIgnored r)) ::
      upload_actions (S k) rest
  | Some I94 | Some IDone => []
  end.

Definition uploader_done (u : option uploader_pc) : bool :=
  match u with Some IDone => true | _ => false end.

Definition input_joined (pc : main_pc) : bool :=
  match pc with
  | M121 _ | M122 _ _ | M123 _ _ | M127 _ => true
  | _ => false
  end.

Definition up_log (s : state) : Prop :=
  (before_go_uploader (main s) = true -> uploader s = None) /\
  select is_upload (log s) ++ pending (uploader s) =
    upload_actions 0 (inputs r) /\
  count is_close_input (log s) =
    (if uploader_done (uploader s) then 1 else 0) /\
  inputChan s = (if uploader_done (uploader s) then Closed else Open) /\
  (uploader_done (uploader s) = true -> In ACloseInputChan (log s)) /\
  (input_joined (main s) = true -> In ARecvInputChan (log s)) /\
  before ACloseInputChan ARecvInputChan (log s) /\
  (forall k, before ARecvInputChan (ARecvOutputChan k) (log s)).

Lemma up_log_init : up_log init.
Proof.
  unfold up_log; simpl.
  repeat split; intros; try discriminate; apply before_nil.
Qed.

Lemma up_log_step l s : up_log s -> up_log (step w r l s).
Proof.
  unfold up_log. destruct s as [p m wt u ds n t ic oc lg]; simpl.
  intros (U1 & U2 & U3 & U4 & U5 & U6 & U7 & U8).
  step_cases; subst; simpl in *.
  all: try solve [auto 10].
  all: rewrite ?app_nil_r.
  all: repeat match goal with
         | H : ?b = _ |- context [if ?b then _ else _] => rewrite H
         | H : ?b = _, H' : context [if ?b then _ else _] |- _ =>
             rewrite H in H'
         end.
  all: feed_refl; simpl in *.
  all: rewrite <- ?app_assoc, ?app_nil_r in *; simpl in *.
  all: split; [|split; [|split; [|split; [|split; [|split; [|split]]]]]];
    intros; simplify_eq; auto;
    try (apply before_cons; auto; intros; simplify_eq; auto).
  all: try match goal with
         | H : ?P, U : ?P -> Some _ = None |- _ =>
             specialize (U H); discriminate
         end.
Qed.

Lemma up_log_run sched : up_log (run w r sched init).
Proof. apply run_invariant; [apply up_log_init | apply up_log_step]. Qed.

(** *** The download goroutines in the log, and the join on their channels *)

Definition is_done (d : downloader) : bool :=
  match dl_pc d with ODone => true | _ => false end.

Definition closes (ds : list downloader) (k : nat) : nat :=
  match ds !! k with
  | Some d => if is_done d then 1 else 0
  | None => 0
  end.

Lemma closes_go ds o j k :
  closes (ds ++ [{| dl_o := o; dl_chan := j; dl_pc := O102 |}]) k =
  closes ds k.
Proof.
  unfold closes. destruct (decide (k < length ds)) as [Hk | Hk].
  - rewrite lookup_app_l; auto.
  - rewrite (lookup_ge_None_2 ds k) by lia.
    rewrite lookup_app_r by lia.
    destruct (k - length ds); simpl; auto.
Qed.

Lemma closes_goto ds k0 d pc k :
  ds !! k0 = Some d -> is_done d = false -> pc <> ODone ->
  closes (<[k0 := set_pc d pc]> ds) k = closes ds k.
Proof.
  intros Hd Hnd Hpc. unfold closes.
  destruct (decide (k0 = k)) as [<- | Hne].
  - rewrite list_lookup_insert_eq by (eapply lookup_lt_Some; eauto).
    rewrite Hd, Hnd. unfold is_done, set_pc; simpl.
    destruct pc; congruence.
  - rewrite list_lookup_insert_ne; auto.
Qed.

Lemma closes_close ds k0 d k :
  ds !! k0 = Some d -> is_done d = false ->
  closes (<[k0 := set_pc d ODone]> ds) k =
  (if Nat.eqb k0 k then 1 else 0) + closes ds k.
Proof.
  intros Hd Hnd. unfold closes.
  destruct (Nat.eqb_spec k0 k) as [<- | Hne].
  - rewrite list_lookup_insert_eq by (eapply lookup_lt_Some; eauto).
    rewrite Hd, Hnd. reflexivity.
  - rewrite list_lookup_insert_ne; auto.
Qed.

(** How many of [outputChans] the loop of lines 122-124 has received
    from. *)
Definition received (pc : main_pc) : nat :=
  match pc with
  | M122 _ j | M123 _ j => j
  | M127 _ => length (outputs r)
  | _ => 0
  end.

Definition closed_upto (n : nat) (oc : list chan_state) : Prop :=
  forall k, k < n -> oc !! k = Some Closed.

Lemma closed_upto_0 oc : closed_upto 0 oc.
Proof. intros k Hk; lia. Qed.

Lemma closed_upto_close n oc j :
  closed_upto n oc -> closed_upto n (<[j := Closed]> oc).
Proof.
  intros H k Hk. specialize (H k Hk).
  destruct (decide (j = k)) as [-> | Hne].
  - apply list_lookup_insert_eq. eapply lookup_lt_Some; eauto.
  - rewrite list_lookup_insert_ne; auto.
Qed.

Lemma closed_upto_S n oc :
  closed_upto n oc -> oc !! n = Some Closed -> closed_upto (S n) oc.
Proof.
  intros H Hn k Hk. destruct (decide (k = n)) as [-> | Hne]; auto.
  apply H; lia.
Qed.

Lemma closed_upto_le n n' oc :
  closed_upto n oc -> n' <= n -> closed_upto n' oc.
Proof. intros H Hle k Hk. apply H; lia. Qed.

Definition dl_log (s : state) : Prop :=
  (forall k, count (is_close_output k) (log s) = closes (downloaders s) k) /\
  (forall k, In (ADownloadCall k) (log s) ->
     exists o, outputs r !! k = Some o /\
               String.eqb (out_Path o) "" = false) /\
  closed_upto (received (main s)) (outputChans s).

Lemma dl_log_init : dl_log init.
Proof.
  unfold dl_log; simpl. split; [|split]; auto using closed_upto_0.
  intros k []. 
Qed.

Lemma dl_log_step l s : dl_shape s -> dl_log s -> dl_log (step w r l s).
Proof.
  unfold dl_shape, dl_log.
  destruct s as [p m wt u ds n t ic oc lg]; simpl.
  intros (Hb & Hs & Ha & Hd & Hc) (L1 & L2 & L3).
  step_cases; subst; simpl in *.
  all: try solve [auto 10].
  all: try solve [split; [|split]; auto using closed_upto_0;
                  intros ? [?|?]; try discriminate; auto].
  all: feed_refl.
  all: try (unfold has_outputs in *;
            match goal with
            | H : (_ <? _) = false |- _ => apply Nat.ltb_ge in H
            end).
  all: try match goal with
         | H : _ !! _ = Some ?d, H' : dl_pc ?d = _ |- _ =>
             let E := fresh "E" in
             assert (E : is_done d = false)
               by (unfold is_done; rewrite H'; reflexivity);
             destruct (Hd _ _ H) as (Hch & Ho & Hpath)
         end.
  all: split; [|split].
  all: try (intros k0; rewrite ?closes_go, ?closes_goto, ?closes_close
              by (auto; congruence); rewrite ?L1; auto; fail).
  all: try (intros ? [?|?]; simplify_eq; eauto; fail).
  all: auto using closed_upto_close, closed_upto_S.
  - replace (length (outputs r)) with 0 by lia. apply closed_upto_0.
  - eapply closed_upto_le; eauto. lia.
  - intros k0. rewrite closes_close by auto. rewrite L1, Hch. reflexivity.
Qed.

Lemma dl_inv_run sched :
  dl_shape (run w r sched init) /\ dl_log (run w r sched init).
Proof.
  apply (run_invariant (fun s => dl_shape s /\ dl_log s)).
  - split; [apply dl_shape_init | apply dl_log_init].
  - intros l s [H1 H2]. split; [apply dl_shape_step | apply dl_log_step]; auto.
Qed.

(** *** The watcher *)

(** What the watcher's program counter says about the abort call. *)
Definition watcher_knows (pc : watcher_pc) (lg : list action) : Prop :=
  match pc with
  | W137 => True
  | W139 | W141 | W141_wait => In ARecvTerminate lg
  | W142 e => In ARecvTerminate lg /\ e = AbortBuild w (client r) (build_id r)
  | W143 e => AbortBuild w (client r) (build_id r) = Some e
  | W144 | WReturned =>
      exists e, AbortBuild w (client r) (build_id r) = Some e /\
                In (failure_line e) lg
  | W148 | W149 | W150 =>
      In ARecvTerminate lg /\ AbortBuild w (client r) (build_id r) = None
  end.

(** Past line 141: the abort call has returned. *)
Definition abort_returned (pc : option watcher_pc) : bool :=
  match pc with
  | None | Some W137 | Some W139 | Some W141 | Some W141_wait => false
  | _ => true
  end.

Definition watcher_inv (s : state) : Prop :=
  (before_go_watcher (main s) = true -> watcher s = None) /\
  (terminate s <> [] -> notified s = true) /\
  (forall pc, watcher s = Some pc -> pc <> W137 -> notified s = true) /\
  (forall pc, watcher s = Some pc -> watcher_knows pc (log s)) /\
  (forall c, In (AWatcherExit c) (log s) ->
     AbortBuild w (client r) (build_id r) = None) /\
  (forall e, In (AAbortDone e) (log s) ->
     e = AbortBuild w (client r) (build_id r)) /\
  (forall e, In (AAbortDone e) (log s) -> abort_returned (watcher s) = true).

Lemma watcher_knows_cons pc a lg :
  watcher_knows pc lg -> watcher_knows pc (a :: lg).
Proof.
  destruct pc; simpl; auto; try tauto.
  all: intros (e & ? & ?); exists e; auto.
Qed.

Lemma watcher_inv_init : watcher_inv init.
Proof.
  unfold watcher_inv; simpl.
  repeat split; intros; try discriminate; try tauto.
Qed.

Lemma watcher_inv_step l s : watcher_inv s -> watcher_inv (step w r l s).
Proof.
  unfold watcher_inv. destruct s as [p m wt u ds n t ic oc lg]; simpl.
  intros (W1 & W2 & W3 & W4 & W5 & W6 & W7).
  step_cases; subst; simpl in *.
  all: try solve [auto 10].
  all: split; [|split; [|split; [|split; [|split; [|split]]]]]; intros;
    simplify_eq; auto.
  all: try solve [in_log; eauto].
  all: try solve [apply watcher_knows_cons; auto].
  all: try solve [eapply W3; eauto; congruence].
  all: try solve [apply W2; congruence].
  all: try (specialize (W4 _ eq_refl)); simpl in *.
  all: try solve [intuition eauto].
  all: try solve [match goal with
                  | H : _ \/ _ |- _ =>
                      destruct H as [H|H]; simplify_eq; auto;
                      try (pose proof (W7 _ H)); try (pose proof (W6 _ H));
                      simpl in *; congruence
                  end].
  all: try match goal with
       | H : ?P, U : ?P -> Some _ = None |- _ =>
           specialize (U H); discriminate
       end.
  match goal with
  | H : _ \/ _ |- _ =>
      destruct H as [H|H]; [discriminate|];
      pose proof (W7 _ H) as H7; rewrite (W1 eq_refl) in H7; exact H7
  end.
Qed.

Lemma watcher_inv_run sched : watcher_inv (run w r sched init).
Proof.
  apply run_invariant; [apply watcher_inv_init | apply watcher_inv_step].
Qed.

(** Once the abort call has succeeded the watcher is all that is needed
    to end the process: it does not look at any other goroutine. *)
Lemma forced_exit_from_W148 s sig :
  watcher_inv s -> proc s = Running -> watcher s = Some W148 ->
  proc (run w r (Interrupt sig :: repeat (Run Watcher) 3) s) =
    Exited forced_exit_code /\
  log (run w r (Interrupt sig :: repeat (Run Watcher) 3) s) =
    AWatcherExit forced_exit_code :: exiting_line :: ARecvTerminate ::
    AInterrupt sig (length (terminate s) <? 1) :: log s.
Proof.
  intros (_ & _ & W3 & _) Hp Hw.
  specialize (W3 _ Hw). destruct s as [p m wt u ds n t ic oc lg].
  simpl in Hp, Hw, W3. subst. rewrite W3 by discriminate.
  destruct t as [|s0 [|s1 t]]; exec; auto.
Qed.

Lemma forced_exit_from_W141_wait s sig :
  watcher_inv s -> proc s = Running -> watcher s = Some W141_wait ->
  AbortBuild w (client r) (build_id r) = None ->
  proc (run w r (Interrupt sig :: repeat (Run Watcher) 3) s) = Running /\
  proc (run w r (Interrupt sig :: Return Watcher :: repeat (Run Watcher) 4) s)
    = Exited forced_exit_code.
Proof.
  intros (_ & _ & W3 & _) Hp Hw Hab.
  specialize (W3 _ Hw). destruct s as [p m wt u ds n t ic oc lg].
  simpl in Hp, Hw, W3. subst. rewrite W3 by discriminate.
  destruct t as [|s0 [|s1 t]]; exec; rewrite Hab; exec; auto.
Qed.

(** *** A run without output bindings *)

Definition in_output_loop (pc : main_pc) : bool :=
  match pc with
  | M99 _ _ | M100 _ _ _ | M101 _ _ _ | M122 _ _ | M123 _ _ => true
  | _ => false
  end.

Definition no_outputs_inv (s : state) : Prop :=
  in_output_loop (main s) = false /\
  downloaders s = [] /\ outputChans s = [] /\
  count is_output_action (log s) = 0.

Lemma no_outputs_inv_step l s :
  outputs r = [] -> no_outputs_inv s -> no_outputs_inv (step w r l s).
Proof.
  unfold no_outputs_inv. destruct s as [p m wt u ds n t ic oc lg]; simpl.
  intros E (N1 & N2 & N3 & N4). subst ds oc.
  assert (Ho : has_outputs r = false) by (unfold has_outputs; rewrite E; auto).
  step_cases; subst; simpl in *; try congruence; auto.
  all: rewrite lookup_nil in *; discriminate.
Qed.

Lemma no_outputs_inv_run sched :
  outputs r = [] -> no_outputs_inv (run w r sched init).
Proof.
  intros E. apply run_invariant.
  - unfold no_outputs_inv; simpl; auto.
  - intros; apply no_outputs_inv_step; auto.
Qed.

(** *** A run whose event feed cannot be opened *)

Definition after_feed (pc : main_pc) : bool :=
  match pc with
  | M116 _ | M116_wait _ | M117 _ _ | M119 _ | M121 _
  | M122 _ _ | M123 _ _ | M127 _ => true
  | _ => false
  end.

Definition feed_fail_inv (err : Error) (s : state) : Prop :=
  after_feed (main s) = false /\
  (forall x, main s = M112 x -> x = inl err) /\
  (forall e, main s = MReturned e -> e = err) /\
  (forall e, In (AReturn e) (log s) -> e = err /\ main s = MReturned err) /\
  count is_after_feed (log s) = 0.

Lemma feed_fail_inv_step err l s :
  BuildEvents w (client r) (build_id r) = inl err ->
  feed_fail_inv err s -> feed_fail_inv err (step w r l s).
Proof.
  unfold feed_fail_inv. destruct s as [p m wt u ds n t ic oc lg]; simpl.
  intros E (F1 & F2 & F3 & F4 & F5).
  step_cases; subst; simpl in *; try discriminate.
  all: try solve [auto 10].
  all: feed_refl.
  all: repeat split; intros; simplify_eq; auto.
  all: try solve [in_log; eauto].
  all: specialize (F2 _ eq_refl); simplify_eq; auto.
  destruct H as [H | H]; [congruence | apply F4 in H; tauto].
Qed.

Lemma feed_fail_inv_run err sched :
  BuildEvents w (client r) (build_id r) = inl err ->
  feed_fail_inv err (run w r sched init).
Proof.
  intros E. apply run_invariant.
  - unfold feed_fail_inv; simpl. repeat split; intros; try discriminate.
    all: tauto.
  - intros; apply feed_fail_inv_step; auto.
Qed.

(** *** The orchestration without the watcher *)

Definition is_watcher_label (l : label) : bool :=
  match l with
  | Run Watcher | Return Watcher => true
  | _ => false
  end.

(** The same schedule with the watcher never given a turn. *)
Definition without_watcher (sched : list label) : list label :=
  List.filter (fun l => negb (is_watcher_label l)) sched.

(** Everything but the watcher, its channel and what the signal path
    logs. *)
Definition orchestration (s : state) :=
  (proc s, main s, uploader s, downloaders s, notified s, inputChan s,
   outputChans s, select (fun a => negb (is_signal_path a)) (log s)).

Lemma orchestration_step l s s' :
  is_watcher_label l = false ->
  orchestration s = orchestration s' ->
  orchestration (step w r l s) = orchestration (step w r l s').
Proof.
  unfold orchestration.
  destruct s as [p m wt u ds n t ic oc lg],
           s' as [p' m' wt' u' ds' n' t' ic' oc' lg']; simpl.
  intros Hl H. injection H as -> -> -> -> -> -> -> H.
  unfold build_line, failure_line, aborting_line, exiting_line.
  step_cases; subst; simpl in *; try discriminate;
    rewrite ?app_nil_r; congruence.
Qed.

Lemma orchestration_watcher l s :
  is_watcher_label l = true -> watcher s <> Some W150 ->
  orchestration (step w r l s) = orchestration s.
Proof.
  unfold orchestration.
  destruct s as [p m wt u ds n t ic oc lg]; simpl.
  intros Hl Hw.
  unfold build_line, failure_line, aborting_line, exiting_line.
  step_cases; subst; simpl in *; try discriminate;
    rewrite ?app_nil_r; congruence.
Qed.

Lemma orchestration_run err sched : forall s s',
  AbortBuild w (client r) (build_id r) = Some err ->
  watcher_inv s ->
  orchestration s = orchestration s' ->
  orchestration (run w r sched s) =
  orchestration (run w r (without_watcher sched) s').
Proof.
  induction sched as [|l sched IH]; intros s s' Hab Hinv Hs; simpl; auto.
  destruct (is_watcher_label l) eqn:Hl; simpl.
  - apply IH; auto using watcher_inv_step.
    rewrite orchestration_watcher; auto.
    intros Hw. destruct Hinv as (_ & _ & _ & W4 & _).
    specialize (W4 _ Hw). simpl in W4. destruct W4; congruence.
  - apply IH; auto using watcher_inv_step, orchestration_step.
Qed.
End Runs.

(** ** A schedule that lets every goroutine finish

    The main goroutine runs up to the join, then the uploads run, then each
    download in turn, then the join and the exit. *)
Section Completion.
Variable w : World.
Variable r : Resolved.

Abbreviation St := Build_state.

Fixpoint spawn_sched (rest : list Output) : list label :=
  match rest with
  | [] => [Run Main]
  | _ :: rest' => Run Main :: Run Main :: Run Main :: spawn_sched rest'
  end.

Fixpoint fresh (i : nat) (rest : list Output) : list downloader :=
  match rest with
  | [] => []
  | o :: rest' =>
      {| dl_o := o; dl_chan := i; dl_pc := O102 |} :: fresh (S i) rest'
  end.

Lemma spawn_loop rest : forall i wt u ds n t ic oc lg,
  exists lg',
    run w r (spawn_sched rest)
      (St Running (M99 i rest) wt u ds n t ic oc lg) =
    St Running M111 wt u (ds ++ fresh i rest) n t ic
      (oc ++ replicate (length rest) Open) lg'.
Proof.
  induction rest as [|o rest IH]; intros; cbn [spawn_sched]; exec.
  - rewrite !app_nil_r. eexists; reflexivity.
  - destruct (IH (S i) wt u
                (ds ++ [{| dl_o := o; dl_chan := i; dl_pc := O102 |}])
                n t ic (oc ++ [Open]) (AGoDownloader i :: lg))
      as [lg' H].
    rewrite H. rewrite <- !app_assoc. eexists; reflexivity.
Qed.

Lemma spawn_loop_log rest : forall i wt u ds n t ic oc lg,
  exists lg',
    run w r (spawn_sched rest)
      (St Running (M99 i rest) wt u ds n t ic oc lg) =
    St Running M111 wt u (ds ++ fresh i rest) n t ic
      (oc ++ replicate (length rest) Open) lg' /\
    (forall a, In a lg -> In a lg').
Proof.
  induction rest as [|o rest IH]; intros; cbn [spawn_sched]; exec.
  - rewrite !app_nil_r. eexists; split; [reflexivity | auto].
  - destruct (IH (S i) wt u
                (ds ++ [{| dl_o := o; dl_chan := i; dl_pc := O102 |}])
                n t ic (oc ++ [Open]) (AGoDownloader i :: lg))
      as (lg' & H & Hin).
    rewrite H. rewrite <- !app_assoc. eexists; split; [reflexivity|].
    intros a Ha. apply Hin. simpl; auto.
Qed.

Definition feed_sched : list label :=
  [Run Main; Return Main; Run Main; Run Main; Return Main; Run Main].

Lemma feed_phase es wt u ds n t ic oc lg :
  BuildEvents w (client r) (build_id r) = inr es ->
  exists lg',
    run w r feed_sched (St Running M111 wt u ds n t ic oc lg) =
    St Running (M119 (Render w es)) wt u ds n t ic oc lg'.
Proof.
  intros Hes. unfold feed_sched. exec. rewrite Hes. exec.
  eexists; reflexivity.
Qed.

Definition has_path (p : string) : bool := negb (String.eqb p "").

Fixpoint upload_sched (rest : list Input) : list label :=
  match rest with
  | [] => [Run Uploader; Run Uploader]
  | i :: rest' =>
      Run Uploader :: Run Uploader ::
      (if has_path (in_Path i) then [Run Uploader; Return Uploader] else [])
      ++ upload_sched rest'
  end.

Lemma upload_phase rest : forall k m wt ds n t ic oc lg,
  exists lg',
    run w r (upload_sched rest)
      (St Running m wt (Some (I89 k rest)) ds n t ic oc lg) =
    St Running m wt (Some IDone) ds n t Closed oc lg'.
Proof.
  induction rest as [|i rest IH]; intros; cbn [upload_sched]; exec.
  - eexists; reflexivity.
  - unfold has_path.
    destruct (negb (String.eqb (in_Path i) "")); cbn [app]; exec; apply IH.
Qed.

Lemma insert_middle {A} (l1 l2 : list A) (x y : A) :
  <[length l1 := y]> (l1 ++ x :: l2) = l1 ++ y :: l2.
Proof.
  replace (length l1) with (length l1 + 0) by lia.
  rewrite insert_app_r. reflexivity.
Qed.

Definition download_sched (k : nat) (o : Output) : list label :=
  Run (Downloader k) ::
  (if has_path (out_Path o)
   then [Run (Downloader k); Return (Downloader k)] else []) ++
  [Run (Downloader k)].

(** One step of the goroutine that sits in the middle of the pool. *)
Ltac dl_step :=
  rewrite run_cons; unfold step; cbn [proc];
  unfold step_downloader, return_downloader; cbn [downloaders];
  rewrite list_lookup_middle by auto; cbn [dl_pc dl_o dl_chan];
  unfold goto_downloader, set_pc, set_downloaders, set_outputChans, emit;
  cbn [proc main watcher uploader downloaders notified terminate inputChan
       outputChans log dl_pc dl_o dl_chan];
  rewrite ?insert_middle.

Lemma download_one o dn post c1 c2 m wt u n t ic lg :
  length c1 = length dn ->
  exists lg' d',
    run w r (download_sched (length dn) o)
      (St Running m wt u
         (dn ++ {| dl_o := o; dl_chan := length dn; dl_pc := O102 |} :: post)
         n t ic (c1 ++ Open :: c2) lg) =
    St Running m wt u (dn ++ d' :: post) n t ic (c1 ++ Closed :: c2) lg'.
Proof.
  intros Hc. unfold download_sched, has_path. dl_step.
  destruct (negb (String.eqb (out_Path o) "")); cbn [app].
  - do 3 dl_step. rewrite <- Hc, insert_middle, run_nil.
    do 2 eexists; reflexivity.
  - dl_step. rewrite <- Hc, insert_middle, run_nil.
    do 2 eexists; reflexivity.
Qed.

Fixpoint download_all (j : nat) (rest : list Output) : list label :=
  match rest with
  | [] => []
  | o :: rest' => download_sched j o ++ download_all (S j) rest'
  end.

Lemma download_phase rest : forall j dn m wt u n t ic lg,
  length dn = j ->
  exists lg' dn',
    run w r (download_all j rest)
      (St Running m wt u (dn ++ fresh j rest) n t ic
         (replicate j Closed ++ replicate (length rest) Open) lg) =
    St Running m wt u dn' n t ic (replicate (j + length rest) Closed) lg'.
Proof.
  induction rest as [|o rest IH]; intros j dn m wt u n t ic lg Hj;
    cbn [download_all fresh length replicate].
  - rewrite !app_nil_r, Nat.add_0_r, run_nil. do 2 eexists; reflexivity.
  - subst j. rewrite run_app.
    destruct (download_one o dn (fresh (S (length dn)) rest)
                (replicate (length dn) Closed)
                (replicate (length rest) Open) m wt u n t ic lg)
      as (lg1 & d' & H1); [apply length_replicate|].
    rewrite H1.
    destruct (IH (S (length dn)) (dn ++ [d']) m wt u n t ic lg1)
      as (lg2 & dn' & H2); [rewrite length_app; simpl; lia|].
    rewrite replicate_S_end, <- !app_assoc in H2. simpl in H2.
    rewrite H2. replace (length dn + S (length rest))
      with (S (length dn) + length rest) by lia.
    do 2 eexists; reflexivity.
Qed.

Fixpoint join_sched (todo : nat) : list label :=
  match todo with
  | 0 => [Run Main]
  | S todo' => Run Main :: Run Main :: join_sched todo'
  end.

Lemma join_loop todo : forall k N c wt u ds n t ic lg,
  k + todo = N ->
  exists lg',
    run w r (join_sched todo)
      (St Running (M122 c k) wt u ds n t ic (replicate N Closed) lg) =
    St Running (M127 c) wt u ds n t ic (replicate N Closed) lg'.
Proof.
  induction todo as [|todo IH]; intros k N c wt u ds n t ic lg Hk;
    cbn [join_sched]; step1; rewrite length_replicate.
  - rewrite (proj2 (Nat.ltb_ge k N)) by lia. rewrite run_nil.
    eexists; reflexivity.
  - rewrite (proj2 (Nat.ltb_lt k N)) by lia. step1.
    rewrite lookup_replicate_2 by lia. apply IH. lia.
Qed.

Definition complete_sched : list label :=
  repeat (Run Main) 7 ++
  match outputs r with [] => [] | _ => spawn_sched (outputs r) end ++
  feed_sched ++
  upload_sched (inputs r) ++
  download_all 0 (outputs r) ++
  [Run Main; Run Main] ++
  match outputs r with
  | [] => []
  | _ => join_sched (length (outputs r))
  end ++
  [Run Main].

Lemma no_interrupt_app s1 s2 :
  no_interrupt (s1 ++ s2) = no_interrupt s1 && no_interrupt s2.
Proof. unfold no_interrupt. apply forallb_app. Qed.

Lemma complete_sched_quiet : no_interrupt complete_sched = true.
Proof.
  unfold complete_sched. rewrite !no_interrupt_app.
  assert (A : forall rest, no_interrupt (spawn_sched rest) = true)
    by (induction rest; simpl; auto).
  assert (B : forall rest, no_interrupt (upload_sched rest) = true).
  { induction rest as [|i rest IH]; simpl; auto.
    destruct (has_path (in_Path i)); simpl; auto. }
  assert (C : forall rest j, no_interrupt (download_all j rest) = true).
  { induction rest as [|o rest IH]; intros j; simpl; auto.
    rewrite no_interrupt_app, IH.
    unfold download_sched. destruct (has_path (out_Path o)); reflexivity. }
  assert (D : forall n, no_interrupt (join_sched n) = true)
    by (induction n; simpl; auto).
  rewrite B, C. destruct (outputs r); rewrite ?A, ?D; reflexivity.
Qed.

Lemma complete_run es :
  BuildEvents w (client r) (build_id r) = inr es ->
  exists dn lg,
    run w r complete_sched init =
    St (Exited (Render w es)) (M127 (Render w es)) (Some W137)
      (Some IDone) dn true [] Closed
      (replicate (length (outputs r)) Closed)
      (AMainExit (Render w es) :: lg).
Proof.
  intros Hes. unfold complete_sched, init.
  destruct (outputs r) as [|o outs] eqn:E.
  - cbn [download_all app repeat length replicate]. exec.
    unfold has_outputs; rewrite E; cbn [length Nat.ltb Nat.leb].
    rewrite run_app.
    destruct (feed_phase es (Some W137) (Some (I89 0 (inputs r))) [] true
                [] Open []
                [AGoUploader; ANotify; AGoWatcher; build_line (build_id r)]
                Hes) as [lg1 H1].
    rewrite H1, run_app.
    destruct (upload_phase (inputs r) 0 (M119 (Render w es)) (Some W137)
                [] true [] Open [] lg1) as [lg2 H2].
    rewrite H2. exec.
    unfold has_outputs; rewrite E; cbn [length Nat.ltb Nat.leb]. exec.
    do 2 eexists; reflexivity.
  - cbn [app repeat]. exec.
    unfold has_outputs; rewrite E; cbn [length Nat.ltb Nat.leb].
    rewrite run_app.
    destruct (spawn_loop (o :: outs) 0 (Some W137)
                (Some (I89 0 (inputs r))) [] true [] Open []
                [AGoUploader; ANotify; AGoWatcher; build_line (build_id r)])
      as [lg0 H0].
    rewrite H0, run_app. cbn [app].
    destruct (feed_phase es (Some W137) (Some (I89 0 (inputs r)))
                (fresh 0 (o :: outs)) true [] Open
                (replicate (length (o :: outs)) Open) lg0 Hes) as [lg1 H1].
    rewrite H1, run_app.
    destruct (upload_phase (inputs r) 0 (M119 (Render w es)) (Some W137)
                (fresh 0 (o :: outs)) true [] Open
                (replicate (length (o :: outs)) Open) lg1) as [lg2 H2].
    rewrite H2, run_app.
    destruct (download_phase (o :: outs) 0 [] (M119 (Render w es))
                (Some W137) (Some IDone) true [] Closed lg2 eq_refl)
      as (lg3 & dn & H3).
    cbn [app replicate] in H3. rewrite H3.
    cbn [app]. exec.
    unfold has_outputs; rewrite E; cbn [length Nat.ltb Nat.leb].
    rewrite run_app.
    destruct (join_loop (length (o :: outs)) 0 (0 + length (o :: outs))
                (Render w es) (Some W137) (Some IDone) dn true [] Closed
                (ARecvInputChan :: lg3) eq_refl) as [lg4 H4].
    cbn [length Nat.add] in H4 |- *. rewrite H4. exec.
    do 2 eexists; reflexivity.
Qed.

(** The main goroutine alone, up to the answer of [BuildEvents]. *)
Definition return_sched : list label :=
  repeat (Run Main) 7 ++
  match outputs r with [] => [] | _ => spawn_sched (outputs r) end ++
  [Run Main; Return Main; Run Main].

Lemma feed_fail_run err :
  BuildEvents w (client r) (build_id r) = inl err ->
  exists lg,
    run w r return_sched init =
    St Running (MReturned err) (Some W137) (Some (I89 0 (inputs r)))
      (fresh 0 (outputs r)) true [] Open
      (replicate (length (outputs r)) Open) (AReturn err :: lg) /\
    In AGoUploader lg.
Proof.
  intros Hes. unfold return_sched, init.
  destruct (outputs r) as [|o outs] eqn:E.
  - cbn [app repeat length replicate fresh]. exec.
    unfold has_outputs; rewrite E; cbn [length Nat.ltb Nat.leb].
    exec. rewrite Hes. exec. eexists; split; [reflexivity|].
    simpl; auto.
  - cbn [app repeat]. exec.
    unfold has_outputs; rewrite E; cbn [length Nat.ltb Nat.leb].
    rewrite run_app.
    destruct (spawn_loop_log (o :: outs) 0 (Some W137)
                (Some (I89 0 (inputs r))) [] true [] Open []
                [AGoUploader; ANotify; AGoWatcher; build_line (build_id r)])
      as (lg0 & H0 & Hin).
    rewrite H0. cbn [app]. exec. rewrite Hes. exec.
    eexists; split; [reflexivity|]. simpl. right; right. apply Hin.
    simpl; auto.
Qed.
End Completion.

(** ** Bindings without a local path *)
Section EmptyPath.
Variable w : World.
Variable r : Resolved.

Lemma In_select p a lg : In a lg -> p a = true -> In a (select p lg).
Proof.
  induction lg as [|x lg IH]; simpl; [tauto|].
  intros [-> | H] Hp; apply in_or_app.
  - right. rewrite Hp. simpl; auto.
  - left; auto.
Qed.

Lemma upload_actions_call k rest : forall j,
  In (AUploadCall k) (upload_actions w r j rest) ->
  exists i, rest !! (k - j) = Some i /\ j <= k /\
            String.eqb (in_Path i) "" = false.
Proof.
  induction rest as [|i rest IH]; intros j; simpl; [tauto|].
  intros H. apply in_app_or in H as [H | H].
  - destruct (String.eqb (in_Path i) "") eqn:E; simpl in H; [tauto|].
    destruct H as [H | [H | []]]; [|discriminate].
    injection H as ->. exists i. rewrite Nat.sub_diag. auto.
  - destruct (IH _ H) as (i' & Hi & Hle & Hp).
    exists i'. replace (k - j) with (S (k - S j)) by lia. simpl. auto with lia.
Qed.

Lemma no_upload_without_path sched k i :
  inputs r !! k = Some i -> in_Path i = "" ->
  ~ In (AUploadCall k) (log (run w r sched init)).
Proof.
  intros Hk Hp Hin.
  destruct (up_log_run w r sched) as (_ & U2 & _).
  apply (In_select is_upload) in Hin; [|reflexivity].
  assert (H : In (AUploadCall k) (upload_actions w r 0 (inputs r)))
    by (rewrite <- U2; apply in_or_app; auto).
  apply upload_actions_call in H as (i' & Hi & _ & Hne).
  rewrite Nat.sub_0_r in Hi. rewrite Hk in Hi. injection Hi as <-.
  rewrite Hp in Hne. discriminate.
Qed.

Lemma no_download_without_path sched k o :
  outputs r !! k = Some o -> out_Path o = "" ->
  ~ In (ADownloadCall k) (log (run w r sched init)).
Proof.
  intros Hk Hp Hin.
  destruct (dl_inv_run w r sched) as (_ & _ & L2 & _).
  destruct (L2 k Hin) as (o' & Ho & Hne).
  rewrite Hk in Ho. injection Ho as <-. rewrite Hp in Hne. discriminate.
Qed.

Lemma output_signal_at_most_once sched k :
  count (is_close_output k) (log (run w r sched init)) <= 1.
Proof.
  destruct (dl_inv_run w r sched) as (_ & L1 & _). rewrite L1.
  unfold closes. destruct (_ !! k) as [d|]; [destruct (is_done d)|]; lia.
Qed.

Lemma output_signal_once_done sched k d :
  downloaders (run w r sched init) !! k = Some d -> dl_pc d = ODone ->
  count (is_close_output k) (log (run w r sched init)) = 1.
Proof.
  intros Hd Hpc. destruct (dl_inv_run w r sched) as (_ & L1 & _).
  rewrite L1. unfold closes, is_done. rewrite Hd, Hpc. reflexivity.
Qed.

Lemma output_signal_once_joined sched k c :
  k < length (outputs r) -> main (run w r sched init) = M127 c ->
  count (is_close_output k) (log (run w r sched init)) = 1.
Proof.
  intros Hk Hm.
  destruct (dl_inv_run w r sched) as ((_ & _ & _ & _ & Hc) & _ & _ & L3).
  rewrite Hm in L3. simpl in L3.
  destruct (Hc k (L3 k Hk)) as (d & Hd & Hpc).
  eapply output_signal_once_done; eauto.
Qed.

Lemma input_signal_at_most_once sched :
  count is_close_input (log (run w r sched init)) <= 1.
Proof.
  destruct (up_log_run w r sched) as (_ & _ & U3 & _). rewrite U3.
  destruct (uploader_done _); lia.
Qed.

Lemma input_signal_once_joined sched c :
  main (run w r sched init) = M127 c ->
  count is_close_input (log (run w r sched init)) = 1.
Proof.
  intros Hm.
  destruct (up_log_run w r sched) as (_ & _ & U3 & _ & _ & U6 & U7 & _).
  rewrite Hm in U6. specialize (U6 eq_refl).
  apply in_split in U6 as (later & earlier & Hlg).
  pose proof (U7 _ _ Hlg) as Hin.
  assert (Hc : In ACloseInputChan (log (run w r sched init)))
    by (rewrite Hlg; apply in_or_app; right; right; auto).
  pose proof (count_In is_close_input _ _ Hc eq_refl).
  pose proof (input_signal_at_most_once sched). lia.
Qed.

(** A goroutine whose binding has no path closes its channel in its own
    next two steps. *)
Lemma empty_output_fires sched k d :
  proc (run w r sched init) = Running ->
  downloaders (run w r sched init) !! k = Some d ->
  dl_pc d = O102 -> out_Path (dl_o d) = "" ->
  log (run w r (sched ++ repeat (Run (Downloader k)) 2) init) =
    ACloseOutputChan k :: log (run w r sched init) /\
  outputChans (run w r (sched ++ repeat (Run (Downloader k)) 2) init) !! k =
    Some Closed.
Proof.
  intros Hp Hd Hpc Hpath. rewrite run_app.
  destruct (dl_inv_run w r sched) as ((_ & Hs & Ha & Hpool & _) & _).
  destruct (Hpool k d Hd) as (Hch & Hout & _).
  assert (Hlen : k < length (outputChans (run w r sched init))).
  { destruct (dl_shape_run w r sched) as (Hb & Hs' & Ha' & _).
    pose proof (lookup_lt_Some _ _ _ Hd) as Hk.
    destruct (main (run w r sched init)) eqn:Hm; simpl in *;
      try (destruct Hb as [Hb _]; [reflexivity | lia]);
      try (destruct Ha' as [Ha1 Ha2]; [reflexivity | lia]);
      try (edestruct Hs' as (? & ? & ? & ?); [reflexivity | lia]). }
  destruct (run w r sched init) as [p m wt u ds n t ic oc lg].
  simpl in Hp, Hd, Hlen |- *. subst p.
  unfold step; simpl. unfold step_downloader; simpl. rewrite Hd, Hpc, Hpath.
  simpl. unfold step_downloader, goto_downloader; simpl.
  rewrite list_lookup_insert_eq by (eapply lookup_lt_Some; eauto).
  simpl. rewrite Hch. split; auto.
  apply list_lookup_insert_eq; auto.
Qed.

(** The upload loop passes a binding without a path in one step. *)
Lemma empty_input_skipped sched k i rest :
  proc (run w r sched init) = Running ->
  uploader (run w r sched init) = Some (I90 k i rest) -> in_Path i = "" ->
  uploader (run w r (sched ++ [Run Uploader]) init) = Some (I89 (S k) rest) /\
  log (run w r (sched ++ [Run Uploader]) init) = log (run w r sched init).
Proof.
  intros Hp Hu Hpath. rewrite run_app.
  destruct (run w r sched init) as [p m wt u ds n t ic oc lg].
  simpl in Hp, Hu |- *. subst. unfold step; simpl.
  unfold step_uploader; simpl. rewrite Hpath. simpl. auto.
Qed.
End EmptyPath.

(** ** The completion signals fire

    A goroutine that has been started needs only its own steps, and the
    answers of its own calls, to close its channel; whether a binding has a
    path changes what it does on the way, not whether it gets there. *)
Section Progress.
Variable w : World.
Variable r : Resolved.

(** A log only grows. *)
Lemma count_step p l s :
  count p (log s) <= count p (log (step w r l s)).
Proof.
  destruct s as [pr m wt u ds n t ic oc lg]; simpl.
  step_cases; simpl; try destruct (p _); lia.
Qed.

Lemma count_run p sched : forall s,
  count p (log s) <= count p (log (run w r sched s)).
Proof.
  induction sched as [|l sched IH]; intros s; simpl; [lia|].
  pose proof (count_step p l s). specialize (IH (step w r l s)). lia.
Qed.

(** The upload goroutine's own steps from where it stands to its end:
    lines 89-94 for the bindings still to come. *)
Definition uploader_sched (pc : uploader_pc) : list label :=
  match pc with
  | I89 _ rest => upload_sched rest
  | I90 _ i rest =>
      Run Uploader ::
      (if has_path (in_Path i) then [Run Uploader; Return Uploader] else [])
      ++ upload_sched rest
  | I91 _ _ rest => Run Uploader :: Return Uploader :: upload_sched rest
  | I91_wait _ _ rest => Return Uploader :: upload_sched rest
  | I94 => [Run Uploader]
  | IDone => []
  end.

Lemma uploader_finishes s pc :
  proc s = Running -> uploader s = Some pc ->
  proc (run w r (uploader_sched pc) s) = Running /\
  uploader (run w r (uploader_sched pc) s) = Some IDone /\
  main (run w r (uploader_sched pc) s) = main s /\
  downloaders (run w r (uploader_sched pc) s) = downloaders s.
Proof.
  destruct s as [p m wt u ds n t ic oc lg]; simpl. intros -> ->.
  assert (P : forall k rest lg0,
            exists lg', run w r (upload_sched rest)
              (Build_state Running m wt (Some (I89 k rest)) ds n t ic oc lg0) =
              Build_state Running m wt (Some IDone) ds n t Closed oc lg').
  { intros. apply upload_phase. }
  destruct pc as [k rest|k i rest|k i rest|k i rest| |];
    cbn [uploader_sched]; unfold has_path;
    try destruct (negb (String.eqb (in_Path i) "")) eqn:E; cbn [app]; exec;
    rewrite ?E; exec;
    try (match goal with
         | |- context [run _ _ (upload_sched ?rest)
                         (Build_state _ _ _ (Some (I89 ?k _)) _ _ _ _ _ ?lg0)] =>
             destruct (P k rest lg0) as [lg' ->]
         end);
    simpl; auto.
Qed.

(** Main up to the start of the upload goroutine (line 88). *)
Lemma uploader_started :
  run w r (repeat (Run Main) 6) init =
  Build_state Running M98 (Some W137) (Some (I89 0 (inputs r))) [] true []
    Open [] [AGoUploader; ANotify; AGoWatcher; build_line (build_id r)].
Proof. unfold init. exec. reflexivity. Qed.

Lemma input_signal_fires sched pc :
  proc (run w r sched init) = Running ->
  uploader (run w r sched init) = Some pc ->
  inputChan (run w r (sched ++ uploader_sched pc) init) = Closed /\
  select is_upload (log (run w r (sched ++ uploader_sched pc) init)) =
    upload_actions w r 0 (inputs r) /\
  forall more,
    count is_close_input
      (log (run w r (sched ++ uploader_sched pc ++ more) init)) = 1.
Proof.
  intros Hp Hu.
  destruct (uploader_finishes _ pc Hp Hu) as (_ & Hdone & _).
  rewrite <- run_app in Hdone.
  destruct (up_log_run w r (sched ++ uploader_sched pc))
    as (_ & U2 & U3 & U4 & _).
  rewrite Hdone in U2, U3, U4. simpl in U2, U3, U4.
  rewrite app_nil_r in U2. split; [|split]; auto.
  intros more.
  pose proof (input_signal_at_most_once w r
                (sched ++ uploader_sched pc ++ more)) as Hle.
  rewrite app_assoc in Hle |- *. rewrite run_app in Hle |- *.
  pose proof (count_run is_close_input more
                (run w r (sched ++ uploader_sched pc) init)) as Hge.
  lia.
Qed.

Lemma fresh_lookup rest : forall i k o,
  rest !! k = Some o ->
  fresh i rest !! k = Some {| dl_o := o; dl_chan := i + k; dl_pc := O102 |}.
Proof.
  induction rest as [|x rest IH]; intros i [|k] o H; simpl in *;
    try discriminate.
  - injection H as ->. rewrite Nat.add_0_r. reflexivity.
  - replace (i + S k) with (S i + k) by lia. apply IH; auto.
Qed.

(** Main up to the end of the loop of lines 99-108. *)
Lemma downloaders_started :
  outputs r <> [] ->
  proc (run w r (repeat (Run Main) 7 ++ spawn_sched (outputs r)) init) =
    Running /\
  downloaders (run w r (repeat (Run Main) 7 ++ spawn_sched (outputs r)) init)
    = fresh 0 (outputs r).
Proof.
  intros Hne. rewrite run_app. unfold init. exec.
  unfold has_outputs. destruct (outputs r) as [|o outs] eqn:E; [tauto|].
  cbn [length Nat.ltb Nat.leb].
  destruct (spawn_loop w r (o :: outs) 0 (Some W137)
              (Some (I89 0 (inputs r))) [] true [] Open []
              [AGoUploader; ANotify; AGoWatcher; build_line (build_id r)])
    as [lg' ->].
  simpl. auto.
Qed.

Lemma output_signal_fires sched k d :
  proc (run w r sched init) = Running ->
  downloaders (run w r sched init) !! k = Some d ->
  dl_pc d = O102 -> out_Path (dl_o d) = "" ->
  log (run w r (sched ++ repeat (Run (Downloader k)) 2) init) =
    ACloseOutputChan k :: log (run w r sched init) /\
  outputChans (run w r (sched ++ repeat (Run (Downloader k)) 2) init) !! k =
    Some Closed /\
  forall more,
    count (is_close_output k)
      (log (run w r (sched ++ repeat (Run (Downloader k)) 2 ++ more) init))
    = 1.
Proof.
  intros Hp Hd Hpc Hpath.
  destruct (empty_output_fires w r sched k d Hp Hd Hpc Hpath) as [Hl Hc].
  split; [|split]; auto.
  intros more.
  pose proof (output_signal_at_most_once w r
                (sched ++ repeat (Run (Downloader k)) 2 ++ more) k) as Hle.
  rewrite app_assoc in Hle |- *. rewrite run_app in Hle |- *.
  pose proof (count_run (is_close_output k) more
                (run w r (sched ++ repeat (Run (Downloader k)) 2) init))
    as Hge.
  rewrite Hl in Hge. cbn [count is_close_output] in Hge.
  rewrite Nat.eqb_refl in Hge. lia.
Qed.

Lemma empty_output_fires_after_start k o :
  outputs r !! k = Some o -> out_Path o = "" ->
  outputChans
    (run w r ((repeat (Run Main) 7 ++ spawn_sched (outputs r)) ++
              repeat (Run (Downloader k)) 2) init) !! k = Some Closed /\
  forall more,
    count (is_close_output k)
      (log (run w r ((repeat (Run Main) 7 ++ spawn_sched (outputs r)) ++
                     repeat (Run (Downloader k)) 2 ++ more) init)) = 1.
Proof.
  intros Hk Hpath.
  assert (Hne : outputs r <> []) by (intros E; rewrite E in Hk; discriminate).
  destruct (downloaders_started Hne) as [Hp Hds].
  pose proof (fresh_lookup (outputs r) 0 k o Hk) as Hd.
  rewrite <- Hds in Hd.
  destruct (output_signal_fires _ k _ Hp Hd eq_refl Hpath) as (_ & H1 & H2).
  auto.
Qed.

End Progress.

(** ** A concrete world

    One input with a path and one without, one output without a path and
    one with; the collaborators' answers are parameters. *)
Module Example.
Definition ins : list Input :=
  [{| in_Name := "src"; in_Path := "/work/src" |};
   {| in_Name := "cache"; in_Path := "" |}].

Definition outs : list Output :=
  [{| out_Name := "logs"; out_Path := "" |};
   {| out_Name := "bin"; out_Path := "/work/bin" |}].

Definition world (validate abort : option Error)
    (feed : Error + EventSource) (code : Z) (outs : list Output) : World :=
  {| Fly_Target := "ci";
     TargetClient := fun _ => inr 7;
     ValidateClient := fun _ _ _ => validate;
     LoadTaskConfig := fun _ _ => inr {| tc_Inputs := []; tc_Outputs := [] |};
     DetermineInputs := fun _ _ _ _ => inr ins;
     DetermineOutputs := fun _ _ _ => inr outs;
     CreateBuild := fun _ _ _ _ _ _ _ => inr {| ID := 42%Z |};
     Upload := fun _ _ _ => true;
     Download := fun _ _ => false;
     BuildEvents := fun _ _ => feed;
     AbortBuild := fun _ _ => abort;
     Render := fun _ => code |}.

Definition command : ExecuteCommand :=
  {| TaskConfig := "task.yml"; Privileged := false; ExcludeIgnored := false;
     Inputs := []; InputsFrom := {| PipelineName := ""; JobName := "" |};
     Outputs := []; Tags := [] |}.

Definition resolved (outs : list Output) : Resolved :=
  {| client := 7; excludeIgnored := false; inputs := ins; outputs := outs;
     build := {| ID := 42%Z |} |}.

Definition healthy := world None None (inr 1) 0 outs.
Definition failing_task := world None None (inr 1) 3 outs.
Definition exit_two := world None None (inr 1) 2 outs.
Definition abort_fails := world None (Some "connection refused") (inr 1) 0 outs.
Definition feed_fails := world None None (inl "stream unavailable") 0 outs.
Definition invalid_client := world (Some "not authorized") None (inr 1) 0 outs.
Definition no_outputs := world None None (inr 1) 0 [].

(** The main goroutine up to [signal.Notify], then a first interrupt,
    received by the watcher, which goes on to call [AbortBuild]. *)
Definition first_interrupt : list label :=
  repeat (Run Main) 4 ++ Interrupt SIGINT :: repeat (Run Watcher) 3.

(** .. and the call returns and the watcher looks at the result. *)
Definition abort_answered : list label :=
  first_interrupt ++ [Return Watcher; Run Watcher].

(** A second and a third interrupt after the abort call has returned,
    the watcher given every chance to act on them; then every other
    goroutine runs to its end. *)
Definition interrupted_thrice : list label :=
  first_interrupt ++ Return Watcher :: repeat (Run Watcher) 3 ++
  Interrupt SIGINT :: repeat (Run Watcher) 3 ++
  Interrupt SIGTERM :: repeat (Run Watcher) 3 ++
  drop 4 (complete_sched (resolved outs)).
End Example.

(** ** The properties of [Execute] *)

(** C3.  However many interrupts arrive, and whenever they arrive, a run
    issues at most one abort call for the build. *)
Theorem abort_called_at_most_once w command args sched :
  count is_abort_call (log (Execute w command args sched)) <= 1.
Proof.
  unfold Execute. destruct (prelude w command args) as [err | r].
  - simpl. lia.
  - destruct (abort_inv_run w r sched) as [Hc _]. rewrite Hc.
    destruct (watcher (run w r sched init)) as [[]|]; simpl; lia.
Qed.

Lemma prelude_with_transfers w up down command args :
  prelude (with_transfers w up down) command args = prelude w command args.
Proof. reflexivity. Qed.

(** C2.  In a run without an interrupt the process exit code is the integer
    [eventstream.Render] returned, whatever the uploads and downloads
    reported; and there is such a run that ends with that code. *)
Theorem exit_code_is_consumer_result w command args r es :
  prelude w command args = inr r ->
  BuildEvents w (client r) (build_id r) = inr es ->
  (forall sched c,
     no_interrupt sched = true ->
     proc (Execute w command args sched) = Exited c ->
     c = Render w es) /\
  (forall up down sched c,
     no_interrupt sched = true ->
     proc (Execute (with_transfers w up down) command args sched) = Exited c ->
     c = Render w es) /\
  (exists sched,
     no_interrupt sched = true /\
     proc (Execute w command args sched) = Exited (Render w es)).
Proof.
  intros Hpre Hes. split; [|split].
  - intros sched c Hq Hp. unfold Execute in Hp. rewrite Hpre in Hp.
    destruct (exit_code_without_interrupt w r sched c Hq Hp) as (es' & He & ->).
    congruence.
  - intros up down sched c Hq Hp. unfold Execute in Hp.
    rewrite prelude_with_transfers, Hpre in Hp.
    destruct (exit_code_without_interrupt _ r sched c Hq Hp) as (es' & He & ->).
    simpl in He |- *. congruence.
  - exists (complete_sched r). split; [apply complete_sched_quiet|].
    unfold Execute. rewrite Hpre.
    destruct (complete_run w r es Hes) as (dn & lg & H). rewrite H. reflexivity.
Qed.

Lemma exit_code_is_consumer_result_witness :
  (prelude Example.failing_task Example.command [] =
     inr (Example.resolved Example.outs) /\
   BuildEvents Example.failing_task 7 "42" = inr 1) /\
  (forall sched c,
     no_interrupt sched = true ->
     proc (Execute Example.failing_task Example.command [] sched) = Exited c ->
     c = 3%Z).
Proof.
  split; [split; reflexivity|].
  apply (exit_code_is_consumer_result Example.failing_task Example.command []
           (Example.resolved Example.outs) 1); reflexivity.
Defined.

(** C9.  When client validation, task-config loading, input resolution,
    output resolution or build creation fails, [Execute] returns that error.
    Nothing has been started by then: no watcher, no [signal.Notify], no
    transfer goroutine, no event feed; and the process has not exited, so
    there is no task exit code. *)
Theorem prelude_failure_returns_before_any_effect w command args err sched :
  (exists c,
     TargetClient w (Fly_Target w) = inr c /\
     ValidateClient w c (Fly_Target w) false = Some err) \/
  (exists c,
     TargetClient w (Fly_Target w) = inr c /\
     ValidateClient w c (Fly_Target w) false = None /\
     LoadTaskConfig w (TaskConfig command) args = inl err) \/
  (exists c tc,
     TargetClient w (Fly_Target w) = inr c /\
     ValidateClient w c (Fly_Target w) false = None /\
     LoadTaskConfig w (TaskConfig command) args = inr tc /\
     DetermineInputs w c (tc_Inputs tc) (Inputs command) (InputsFrom command)
       = inl err) \/
  (exists c tc ins,
     TargetClient w (Fly_Target w) = inr c /\
     ValidateClient w c (Fly_Target w) false = None /\
     LoadTaskConfig w (TaskConfig command) args = inr tc /\
     DetermineInputs w c (tc_Inputs tc) (Inputs command) (InputsFrom command)
       = inr ins /\
     DetermineOutputs w c (tc_Outputs tc) (Outputs command) = inl err) \/
  (exists c tc ins outs,
     TargetClient w (Fly_Target w) = inr c /\
     ValidateClient w c (Fly_Target w) false = None /\
     LoadTaskConfig w (TaskConfig command) args = inr tc /\
     DetermineInputs w c (tc_Inputs tc) (Inputs command) (InputsFrom command)
       = inr ins /\
     DetermineOutputs w c (tc_Outputs tc) (Outputs command) = inr outs /\
     CreateBuild w c (Privileged command) ins outs tc (Tags command)
       (Fly_Target w) = inl err) ->
  Execute w command args sched = returned err /\
  main (returned err) = MReturned err /\
  proc (returned err) = Running /\
  watcher (returned err) = None /\
  notified (returned err) = false /\
  uploader (returned err) = None /\
  downloaders (returned err) = [] /\
  log (returned err) = [AReturn err].
Proof.
  intros H. split; [|repeat split].
  unfold Execute, prelude, ErrorMonad.bind, ErrorMonad.check.
  destruct H as [(c & H1 & H2) | [(c & H1 & H2 & H3) |
    [(c & tc & H1 & H2 & H3 & H4) | [(c & tc & ins & H1 & H2 & H3 & H4 & H5) |
    (c & tc & ins & outs & H1 & H2 & H3 & H4 & H5 & H6)]]]].
  all: rewrite H1, H2; try rewrite H3; try rewrite H4; try rewrite H5;
    try rewrite H6; reflexivity.
Qed.

Lemma prelude_failure_returns_before_any_effect_witness :
  (TargetClient Example.invalid_client (Fly_Target Example.invalid_client)
     = inr 7 /\
   ValidateClient Example.invalid_client 7
     (Fly_Target Example.invalid_client) false = Some "not authorized") /\
  Execute Example.invalid_client Example.command [] Example.first_interrupt
    = returned "not authorized".
Proof.
  split; [split; reflexivity|].
  apply (prelude_failure_returns_before_any_effect Example.invalid_client
           Example.command [] "not authorized" Example.first_interrupt).
  left. exists 7. split; reflexivity.
Defined.

(** C10.  When [client.BuildEvents] fails, the transfers having been
    started, [Execute] returns that error: in no run does the main
    goroutine render or close an event source, receive from [inputChan] or
    from an output channel, or call [os.Exit]; and the main goroutine alone
    reaches the return. *)
Theorem feed_failure_returns_immediately w command args r err :
  prelude w command args = inr r ->
  BuildEvents w (client r) (build_id r) = inl err ->
  (forall sched,
     count is_after_feed (log (Execute w command args sched)) = 0 /\
     after_feed (main (Execute w command args sched)) = false /\
     (forall e, main (Execute w command args sched) = MReturned e -> e = err) /\
     (forall c, ~ In (AMainExit c) (log (Execute w command args sched)))) /\
  (exists sched,
     no_interrupt sched = true /\
     main (Execute w command args sched) = MReturned err /\
     proc (Execute w command args sched) = Running /\
     In AGoUploader (log (Execute w command args sched)) /\
     uploader (Execute w command args sched) = Some (I89 0 (inputs r)) /\
     inputChan (Execute w command args sched) = Open).
Proof.
  intros Hpre Hes. split.
  - intros sched. unfold Execute. rewrite Hpre.
    destruct (feed_fail_inv_run w r err sched Hes) as (F1 & F2 & F3 & F4 & F5).
    repeat split; auto.
    intros c Hin. eapply count_zero_not_In; eauto. reflexivity.
  - exists (return_sched r). unfold Execute. rewrite Hpre.
    destruct (feed_fail_run w r err Hes) as (lg & H & Hin). rewrite H. simpl.
    repeat split; auto.
    unfold return_sched. unfold no_interrupt. rewrite !forallb_app.
    assert (A : forall rest, forallb (fun l => negb (is_interrupt l))
                               (spawn_sched rest) = true)
      by (induction rest; simpl; auto).
    destruct (outputs r); rewrite ?A; reflexivity.
Qed.

Lemma feed_failure_returns_immediately_witness :
  (prelude Example.feed_fails Example.command [] =
     inr (Example.resolved Example.outs) /\
   BuildEvents Example.feed_fails 7 "42" = inl "stream unavailable") /\
  (forall sched,
     count is_after_feed
       (log (Execute Example.feed_fails Example.command [] sched)) = 0).
Proof.
  split; [split; reflexivity|].
  intros sched.
  apply (feed_failure_returns_immediately Example.feed_fails Example.command
           [] (Example.resolved Example.outs) "stream unavailable");
    reflexivity.
Defined.

(** C6.  With no output binding no download goroutine is started, nothing
    is downloaded, the main goroutine never enters the loop over
    [outputChans], and once [inputChan] is closed its next three steps
    are the receive, the test of line 121 and [os.Exit]. *)
Theorem no_outputs_no_download_no_wait w command args r sched :
  prelude w command args = inr r ->
  outputs r = [] ->
  downloaders (Execute w command args sched) = [] /\
  outputChans (Execute w command args sched) = [] /\
  count is_output_action (log (Execute w command args sched)) = 0 /\
  in_output_loop (main (Execute w command args sched)) = false /\
  (forall c,
     proc (Execute w command args sched) = Running ->
     main (Execute w command args sched) = M119 c ->
     inputChan (Execute w command args sched) = Closed ->
     proc (Execute w command args (sched ++ repeat (Run Main) 3)) = Exited c).
Proof.
  intros Hpre E. unfold Execute. rewrite Hpre.
  destruct (no_outputs_inv_run w r sched E) as (N1 & N2 & N3 & N4).
  repeat split; auto.
  intros c Hp Hm Hic. rewrite run_app.
  destruct (run w r sched init) as [p m wt u ds n t ic oc lg].
  simpl in Hp, Hm, Hic. subst. exec.
  unfold has_outputs. rewrite E. cbn [length Nat.ltb Nat.leb]. exec.
  reflexivity.
Qed.

Lemma no_outputs_no_download_no_wait_witness :
  (prelude Example.no_outputs Example.command [] = inr (Example.resolved []) /\
   outputs (Example.resolved []) = []) /\
  count is_output_action
    (log (Execute Example.no_outputs Example.command []
            (complete_sched (Example.resolved [])))) = 0.
Proof.
  split; [split; reflexivity|].
  apply (no_outputs_no_download_no_wait Example.no_outputs Example.command []
           (Example.resolved []) (complete_sched (Example.resolved [])));
    reflexivity.
Defined.

(** C4.  The uploads of a run are, in this order, a call and its return
    for each input with a non-empty path, in the order of [inputs]: what has
    happened so far is always an initial part of that sequence.  There is
    one completion signal for the sequence, [inputChan], closed at most once
    and only when the sequence is through; and the join receives from
    [inputChan] after it was closed and before it receives from any output
    channel. *)
Theorem uploads_in_order_then_join w command args r sched :
  prelude w command args = inr r ->
  (exists todo,
     upload_actions w r 0 (inputs r) =
     select is_upload (log (Execute w command args sched)) ++ todo) /\
  count is_close_input (log (Execute w command args sched)) <= 1 /\
  (In ACloseInputChan (log (Execute w command args sched)) ->
   select is_upload (log (Execute w command args sched)) =
   upload_actions w r 0 (inputs r)) /\
  before ACloseInputChan ARecvInputChan (log (Execute w command args sched)) /\
  (forall k,
     before ARecvInputChan (ARecvOutputChan k)
       (log (Execute w command args sched))).
Proof.
  intros Hpre. unfold Execute. rewrite Hpre.
  destruct (up_log_run w r sched) as (_ & U2 & U3 & _ & _ & _ & U7 & U8).
  split; [|split; [|split; [|split]]]; auto.
  - eexists. symmetry. apply U2.
  - apply input_signal_at_most_once.
  - intros Hin. pose proof (count_In is_close_input _ _ Hin eq_refl) as Hc.
    rewrite U3 in Hc.
    destruct (uploader (run w r sched init)) as [[]|]; simpl in Hc; try lia.
    simpl in U2. rewrite app_nil_r in U2. exact U2.
Qed.

Lemma uploads_in_order_then_join_witness :
  prelude Example.healthy Example.command [] =
    inr (Example.resolved Example.outs) /\
  select is_upload
    (log (Execute Example.healthy Example.command []
            (complete_sched (Example.resolved Example.outs)))) =
  [AUploadCall 0; AUploadDone 0 true].
Proof.
  split; [reflexivity|].
  destruct (uploads_in_order_then_join Example.healthy Example.command []
              (Example.resolved Example.outs)
              (complete_sched (Example.resolved Example.outs)) eq_refl)
    as (_ & _ & H & _).
  rewrite H; [reflexivity|]. vm_compute. tauto.
Defined.

(** A task whose first input and only output have no local path. *)
Module Sparse.
Definition ins : list Input :=
  [{| in_Name := "cache"; in_Path := "" |};
   {| in_Name := "src"; in_Path := "/work/src" |}].

Definition outs : list Output := [{| out_Name := "logs"; out_Path := "" |}].

Definition world : World :=
  {| Fly_Target := "ci";
     TargetClient := fun _ => inr 7;
     ValidateClient := fun _ _ _ => None;
     LoadTaskConfig := fun _ _ => inr {| tc_Inputs := []; tc_Outputs := [] |};
     DetermineInputs := fun _ _ _ _ => inr ins;
     DetermineOutputs := fun _ _ _ => inr outs;
     CreateBuild := fun _ _ _ _ _ _ _ => inr {| ID := 42%Z |};
     Upload := fun _ _ _ => true;
     Download := fun _ _ => true;
     BuildEvents := fun _ _ => inr 1;
     AbortBuild := fun _ _ => None;
     Render := fun _ => 0%Z |}.

Definition resolved : Resolved :=
  {| client := 7; excludeIgnored := false; inputs := ins; outputs := outs;
     build := {| ID := 42%Z |} |}.
End Sparse.

(** C5.  A binding without a local path is never transferred, and its
    completion signal fires all the same, exactly once.

    Inputs share one signal, [inputChan].  It is closed at most once in
    every run.  The upload loop passes an input without a path in one step
    and without a trace; from wherever the upload goroutine stands, its own
    steps (and the answers of its own [Upload] calls) take it to the close
    of [inputChan], whatever the other goroutines do or do not do, and in
    every continuation of such a run the channel has been closed exactly
    once.  In particular the goroutine started on line 88 runs to the close
    straight away, having uploaded exactly the inputs with a path, in
    order.

    Each output has a channel of its own.  It is closed at most once in
    every run; the goroutine of an output without a path closes it in its
    first two steps, and in every continuation it has been closed exactly
    once.  In particular this holds right after the goroutines have been
    started (lines 99-108).  In a run whose join is through every signal
    has fired exactly once. *)
Theorem empty_path_binding_completes_without_transfer
    w command args r sched :
  prelude w command args = inr r ->
  (forall k i,
     inputs r !! k = Some i -> in_Path i = "" ->
     ~ In (AUploadCall k) (log (Execute w command args sched)) /\
     (forall rest,
        proc (Execute w command args sched) = Running ->
        uploader (Execute w command args sched) = Some (I90 k i rest) ->
        uploader (Execute w command args (sched ++ [Run Uploader])) =
          Some (I89 (S k) rest) /\
        log (Execute w command args (sched ++ [Run Uploader])) =
          log (Execute w command args sched))) /\
  (count is_close_input (log (Execute w command args sched)) <= 1 /\
   (forall c,
      main (Execute w command args sched) = M127 c ->
      count is_close_input (log (Execute w command args sched)) = 1) /\
   (forall pc,
      proc (Execute w command args sched) = Running ->
      uploader (Execute w command args sched) = Some pc ->
      inputChan (Execute w command args (sched ++ uploader_sched pc)) =
        Closed /\
      forall more,
        count is_close_input
          (log (Execute w command args (sched ++ uploader_sched pc ++ more)))
        = 1) /\
   (inputChan
      (Execute w command args
         (repeat (Run Main) 6 ++ upload_sched (inputs r))) = Closed /\
    select is_upload
      (log (Execute w command args
              (repeat (Run Main) 6 ++ upload_sched (inputs r)))) =
      upload_actions w r 0 (inputs r) /\
    forall more,
      count is_close_input
        (log (Execute w command args
                (repeat (Run Main) 6 ++ upload_sched (inputs r) ++ more)))
      = 1)) /\
  (forall k o,
     outputs r !! k = Some o -> out_Path o = "" ->
     ~ In (ADownloadCall k) (log (Execute w command args sched)) /\
     count (is_close_output k) (log (Execute w command args sched)) <= 1 /\
     (forall c,
        main (Execute w command args sched) = M127 c ->
        count (is_close_output k) (log (Execute w command args sched)) = 1) /\
     (forall d,
        proc (Execute w command args sched) = Running ->
        downloaders (Execute w command args sched) !! k = Some d ->
        dl_pc d = O102 ->
        log (Execute w command args
               (sched ++ repeat (Run (Downloader k)) 2)) =
          ACloseOutputChan k :: log (Execute w command args sched) /\
        forall more,
          count (is_close_output k)
            (log (Execute w command args
                    (sched ++ repeat (Run (Downloader k)) 2 ++ more))) = 1) /\
     (outputChans
        (Execute w command args
           ((repeat (Run Main) 7 ++ spawn_sched (outputs r)) ++
            repeat (Run (Downloader k)) 2)) !! k = Some Closed /\
      forall more,
        count (is_close_output k)
          (log (Execute w command args
                  ((repeat (Run Main) 7 ++ spawn_sched (outputs r)) ++
                   repeat (Run (Downloader k)) 2 ++ more))) = 1)).
Proof.
  intros Hpre. unfold Execute. rewrite Hpre. split; [|split].
  - intros k i Hk Hp. split.
    + apply no_upload_without_path with (i := i); auto.
    + intros rest Hr Hu. apply empty_input_skipped with (i := i); auto.
  - split; [apply input_signal_at_most_once|].
    split; [intros c Hm; eapply input_signal_once_joined; eauto|].
    split.
    + intros pc Hr Hu.
      destruct (input_signal_fires w r sched pc Hr Hu) as (H1 & _ & H3).
      auto.
    + pose proof (uploader_started w r) as Hs.
      destruct (input_signal_fires w r (repeat (Run Main) 6)
                  (I89 0 (inputs r))) as (H1 & H2 & H3);
        try (rewrite Hs; reflexivity).
      auto.
  - intros k o Hk Hp. split; [|split; [|split; [|split]]].
    + apply no_download_without_path with (o := o); auto.
    + apply output_signal_at_most_once.
    + intros c Hm. eapply output_signal_once_joined; eauto.
      eapply lookup_lt_Some; eauto.
    + intros d Hr Hd Hpc.
      destruct (dl_shape_run w r sched) as (_ & _ & _ & Hpool & _).
      destruct (Hpool k d Hd) as (_ & Ho & _).
      assert (Hpath : out_Path (dl_o d) = "") by congruence.
      destruct (output_signal_fires w r sched k d Hr Hd Hpc Hpath)
        as (Hl & _ & Hc).
      auto.
    + apply empty_output_fires_after_start with (o := o); auto.
Qed.

Lemma empty_path_binding_completes_without_transfer_witness :
  (prelude Sparse.world Example.command [] = inr Sparse.resolved /\
   inputs Sparse.resolved !! 0 =
     Some {| in_Name := "cache"; in_Path := "" |} /\
   outputs Sparse.resolved !! 0 =
     Some {| out_Name := "logs"; out_Path := "" |}) /\
  (~ In (AUploadCall 0)
       (log (Execute Sparse.world Example.command []
               (complete_sched Sparse.resolved))) /\
   ~ In (ADownloadCall 0)
       (log (Execute Sparse.world Example.command []
               (complete_sched Sparse.resolved)))) /\
  (inputChan
     (Execute Sparse.world Example.command []
        (repeat (Run Main) 6 ++ upload_sched (inputs Sparse.resolved))) =
     Closed /\
   select is_upload
     (log (Execute Sparse.world Example.command []
             (repeat (Run Main) 6 ++ upload_sched (inputs Sparse.resolved))))
     = [AUploadCall 1; AUploadDone 1 true] /\
   count is_close_input
     (log (Execute Sparse.world Example.command []
             (repeat (Run Main) 6 ++ upload_sched (inputs Sparse.resolved) ++
              [Run Uploader; Run Main]))) = 1) /\
  outputChans
    (Execute Sparse.world Example.command []
       ((repeat (Run Main) 7 ++ spawn_sched (outputs Sparse.resolved)) ++
        repeat (Run (Downloader 0)) 2)) !! 0 = Some Closed /\
  count (is_close_output 0)
    (log (Execute Sparse.world Example.command []
            ((repeat (Run Main) 7 ++ spawn_sched (outputs Sparse.resolved)) ++
             repeat (Run (Downloader 0)) 2 ++ [Run (Downloader 0)]))) = 1.
Proof.
  split; [repeat split; reflexivity|].
  destruct (empty_path_binding_completes_without_transfer Sparse.world
              Example.command [] Sparse.resolved
              (complete_sched Sparse.resolved) eq_refl)
    as (Hin & (_ & _ & _ & Hc1 & Hc2 & Hc3) & Hout).
  destruct (Hin 0 {| in_Name := "cache"; in_Path := "" |} eq_refl eq_refl)
    as [Hi _].
  destruct (Hout 0 {| out_Name := "logs"; out_Path := "" |} eq_refl eq_refl)
    as (Ho & _ & _ & _ & Ho1 & Ho2).
  split; [split; [exact Hi | exact Ho]|].
  split; [split; [exact Hc1 | split; [exact Hc2 | exact (Hc3 _)]]|].
  split; [exact Ho1 | exact (Ho2 _)].
Defined.

(** C7.  When the abort call fails, the watcher prints the failure on
    standard error and returns.  It never reaches its second receive or
    [os.Exit]; every other part of the run is what it would be had the
    watcher never run; and the process, if it exits, exits with the code
    [eventstream.Render] returned. *)
Theorem abort_failure_is_reported_and_not_fatal
    w command args r err sched :
  prelude w command args = inr r ->
  AbortBuild w (client r) (build_id r) = Some err ->
  (forall e,
     In (AAbortDone e) (log (Execute w command args sched)) -> e = Some err) /\
  (watcher (Execute w command args sched) = Some W144 \/
   watcher (Execute w command args sched) = Some WReturned ->
   In (failure_line err) (log (Execute w command args sched))) /\
  (proc (Execute w command args sched) = Running ->
   watcher (Execute w command args sched) = Some W141_wait ->
   log (Execute w command args
          (sched ++ Return Watcher :: repeat (Run Watcher) 2)) =
     failure_line err :: AAbortDone (Some err) ::
     log (Execute w command args sched)) /\
  (watcher (Execute w command args sched) <> Some W148 /\
   watcher (Execute w command args sched) <> Some W149 /\
   watcher (Execute w command args sched) <> Some W150 /\
   forall c, ~ In (AWatcherExit c) (log (Execute w command args sched))) /\
  orchestration (Execute w command args sched) =
    orchestration (Execute w command args (without_watcher sched)) /\
  (forall c,
     proc (Execute w command args sched) = Exited c ->
     exists es,
       BuildEvents w (client r) (build_id r) = inr es /\ c = Render w es).
Proof.
  intros Hpre Hab. unfold Execute. rewrite Hpre.
  pose proof (watcher_inv_run w r sched) as (_ & _ & _ & W4 & W5 & W6 & _).
  assert (Hno : forall pc, watcher (run w r sched init) = Some pc ->
                  pc <> W148 /\ pc <> W149 /\ pc <> W150).
  { intros pc Hpc. specialize (W4 _ Hpc).
    destruct pc; simpl in W4; repeat split; try discriminate;
      destruct W4; congruence. }
  assert (Hne : forall c, ~ In (AWatcherExit c) (log (run w r sched init))).
  { intros c Hin. specialize (W5 c Hin). congruence. }
  split; [|split; [|split; [|split; [|split]]]].
  - intros e Hin. rewrite (W6 e Hin). exact Hab.
  - intros [Hw | Hw]; specialize (W4 _ Hw); simpl in W4;
      destruct W4 as (e & He & Hin); congruence.
  - intros Hp Hw. rewrite run_app.
    destruct (run w r sched init) as [p m wt u ds n t ic oc lg].
    simpl in Hp, Hw. subst. exec. rewrite Hab. exec. reflexivity.
  - repeat split; auto; intros Hw; destruct (Hno _ Hw) as (? & ? & ?);
      congruence.
  - apply orchestration_run with (err := err); auto.
    apply watcher_inv_init.
  - intros c Hp.
    destruct (exit_inv_run w r sched) as (_ & _ & Hc & Hex & _).
    destruct (Hex c Hp) as [[Hm _] | (_ & _ & Hin)].
    + apply Hc. rewrite Hm. reflexivity.
    + destruct (Hne _ Hin).
Qed.

Lemma abort_failure_is_reported_and_not_fatal_witness :
  (prelude Example.abort_fails Example.command [] =
     inr (Example.resolved Example.outs) /\
   AbortBuild Example.abort_fails 7 "42" = Some "connection refused") /\
  proc (Execute Example.abort_fails Example.command []
          Example.interrupted_thrice) = Exited 0 /\
  In (failure_line "connection refused")
    (log (Execute Example.abort_fails Example.command []
            Example.interrupted_thrice)).
Proof.
  split; [split; reflexivity|].
  destruct (abort_failure_is_reported_and_not_fatal Example.abort_fails
              Example.command [] (Example.resolved Example.outs)
              "connection refused" Example.interrupted_thrice
              eq_refl eq_refl) as (_ & H & _).
  split; [vm_compute; reflexivity|]. apply H. right. vm_compute. reflexivity.
Defined.

(** C1, as the code has it.  Once the abort call has returned without an
    error, an interrupt, whether it is delivered now or is already waiting
    in the buffer of [terminate], makes the watcher end the process with the
    forced exit code: in its next three steps when it stands at the second
    receive, in at most four from wherever it stands after the call,
    whatever the main goroutine and the transfers are doing.  While the
    abort call is in flight an interrupt is only buffered: the process
    keeps running until the call has returned, and is ended then if the
    call returned no error. *)
Theorem forced_exit_after_successful_abort w command args r sched sig :
  prelude w command args = inr r ->
  proc (Execute w command args sched) = Running ->
  (watcher (Execute w command args sched) = Some W148 ->
   In ARecvTerminate (log (Execute w command args sched)) /\
   AbortBuild w (client r) (build_id r) = None /\
   proc (Execute w command args
           (sched ++ Interrupt sig :: repeat (Run Watcher) 3)) =
     Exited forced_exit_code /\
   (terminate (Execute w command args sched) <> [] ->
    proc (Execute w command args (sched ++ repeat (Run Watcher) 3)) =
      Exited forced_exit_code)) /\
  (In (AAbortDone None) (log (Execute w command args sched)) ->
   proc (Execute w command args
           (sched ++ Interrupt sig :: repeat (Run Watcher) 4)) =
     Exited forced_exit_code) /\
  (watcher (Execute w command args sched) = Some W141_wait ->
   AbortBuild w (client r) (build_id r) = None ->
   In ARecvTerminate (log (Execute w command args sched)) /\
   proc (Execute w command args
           (sched ++ Interrupt sig :: repeat (Run Watcher) 3)) = Running /\
   proc (Execute w command args
           (sched ++ Interrupt sig :: Return Watcher ::
              repeat (Run Watcher) 4)) = Exited forced_exit_code).
Proof.
  intros Hpre. unfold Execute. rewrite Hpre. intros Hp.
  pose proof (watcher_inv_run w r sched) as Hinv.
  pose proof Hinv as (_ & _ & W3 & W4 & _ & W6 & W7).
  split; [|split].
  - intros Hw. specialize (W4 _ Hw). simpl in W4. destruct W4 as [Hr Hab].
    split; [|split; [|split]]; auto.
    + rewrite run_app. apply forced_exit_from_W148; auto.
    + intros Ht. rewrite run_app.
      destruct (run w r sched init) as [p m wt u ds n t ic oc lg].
      simpl in Hp, Hw, Ht. subst. destruct t as [|s0 t]; [congruence|].
      exec. reflexivity.
  - intros Hin. pose proof (W6 _ Hin) as Hab. specialize (W7 _ Hin).
    rewrite run_app.
    destruct (run w r sched init) as [p m wt u ds n t ic oc lg].
    simpl in Hp, W3, W4, W7. subst p.
    destruct wt as [pc|]; [|discriminate].
    specialize (W3 pc eq_refl). specialize (W4 pc eq_refl).
    destruct pc as [| | | |e|e| | | | | ]; try discriminate;
      simpl in W4; rewrite W3 by discriminate.
    + destruct W4 as [_ ->]. rewrite <- Hab.
      destruct t as [|s0 [|s1 t]]; exec; reflexivity.
    + congruence.
    + destruct W4 as (e & He & _). congruence.
    + destruct t as [|s0 [|s1 t]]; exec; reflexivity.
    + destruct t as [|s0 [|s1 t]]; exec; reflexivity.
    + destruct t as [|s0 [|s1 t]]; exec; reflexivity.
    + destruct W4 as (e & He & _). congruence.
  - intros Hw Hab. specialize (W4 _ Hw). simpl in W4.
    split; auto. rewrite !run_app.
    apply forced_exit_from_W141_wait; auto.
Qed.

Lemma forced_exit_after_successful_abort_witness :
  (prelude Example.healthy Example.command [] =
     inr (Example.resolved Example.outs) /\
   proc (Execute Example.healthy Example.command [] Example.abort_answered)
     = Running /\
   watcher (Execute Example.healthy Example.command [] Example.abort_answered)
     = Some W148) /\
  proc (Execute Example.healthy Example.command []
          (Example.abort_answered ++
           Interrupt SIGTERM :: repeat (Run Watcher) 3)) =
    Exited forced_exit_code.
Proof.
  split; [repeat split; reflexivity|].
  destruct (forced_exit_after_successful_abort Example.healthy
              Example.command [] (Example.resolved Example.outs)
              Example.abort_answered SIGTERM eq_refl eq_refl) as [H _].
  apply H. reflexivity.
Defined.

(** C1 as the specification states it fails twice.  With the abort call in
    flight a second interrupt leaves the process running, however often
    the watcher is scheduled; and when the abort call has failed the
    watcher has returned, so that a second and a third interrupt change
    nothing and the process exits with the consumer's code. *)
Lemma second_interrupt_not_always_forced_exit :
  (count is_recv_terminate
     (log (Execute Example.healthy Example.command []
             Example.first_interrupt)) = 1 /\
   watcher (Execute Example.healthy Example.command []
              Example.first_interrupt) = Some W141_wait /\
   proc (Execute Example.healthy Example.command []
           (Example.first_interrupt ++
            Interrupt SIGINT :: repeat (Run Watcher) 3)) = Running) /\
  (count is_recv_terminate
     (log (Execute Example.abort_fails Example.command []
             Example.interrupted_thrice)) = 1 /\
   count is_watcher_exit
     (log (Execute Example.abort_fails Example.command []
             Example.interrupted_thrice)) = 0 /\
   proc (Execute Example.abort_fails Example.command []
           Example.interrupted_thrice) = Exited 0 /\
   forced_exit_code <> 0%Z).
Proof.
  split; [repeat split; vm_compute; reflexivity|].
  split; [|split; [|split]]; try (vm_compute; reflexivity).
  vm_compute. discriminate.
Qed.

(** C8, as the code has it.  A run the watcher ends exits with
    [forced_exit_code], which is 2 and so not zero. *)
Theorem forced_exit_code_is_fixed w command args sched c :
  In (AWatcherExit c) (log (Execute w command args sched)) ->
  c = forced_exit_code /\
  forced_exit_code = 2%Z /\
  c <> 0%Z /\
  proc (Execute w command args sched) = Exited forced_exit_code.
Proof.
  unfold Execute. destruct (prelude w command args) as [err | r].
  - simpl. intros [H | []]. discriminate.
  - intros Hin.
    destruct (exit_inv_run w r sched) as (_ & _ & _ & _ & _ & Hw).
    destruct (Hw c Hin) as [Hp ->].
    split; [|split; [|split]]; auto; discriminate.
Qed.

Lemma forced_exit_code_is_fixed_witness :
  In (AWatcherExit 2)
    (log (Execute Example.healthy Example.command []
            (Example.abort_answered ++
             Interrupt SIGTERM :: repeat (Run Watcher) 3))) /\
  proc (Execute Example.healthy Example.command []
          (Example.abort_answered ++
           Interrupt SIGTERM :: repeat (Run Watcher) 3)) =
    Exited forced_exit_code.
Proof.
  assert (Hin : In (AWatcherExit 2)
    (log (Execute Example.healthy Example.command []
            (Example.abort_answered ++
             Interrupt SIGTERM :: repeat (Run Watcher) 3))))
    by (vm_compute; auto).
  split; [exact Hin|].
  apply (forced_exit_code_is_fixed Example.healthy Example.command []
           (Example.abort_answered ++
            Interrupt SIGTERM :: repeat (Run Watcher) 3) 2 Hin).
Defined.

(** The forced exit code is not set apart from the task-level codes: a
    consumer that returns 2 makes an uninterrupted run exit with the very
    code of a forced exit. *)
Lemma consumer_can_report_forced_exit_code :
  no_interrupt (complete_sched (Example.resolved Example.outs)) = true /\
  Render Example.exit_two 1 = forced_exit_code /\
  proc (Execute Example.exit_two Example.command []
          (complete_sched (Example.resolved Example.outs))) =
    Exited forced_exit_code /\
  count is_watcher_exit
    (log (Execute Example.exit_two Example.command []
            (complete_sched (Example.resolved Example.outs)))) = 0.
Proof. repeat split; vm_compute; reflexivity. Qed.

(** ** More about [Execute]: the order of things *)

(** Every [b] in the log has an earlier action that satisfies [p]. *)
Definition preceded_by (p : action -> bool) (b : action) (lg : list action)
  : Prop :=
  forall later earlier, lg = later ++ b :: earlier -> 1 <= count p earlier.

Lemma preceded_by_nil p b : preceded_by p b [].
Proof. intros [|? ?] earlier H; discriminate. Qed.

Lemma preceded_by_cons p b x lg :
  preceded_by p b lg -> (x = b -> 1 <= count p lg) ->
  preceded_by p b (x :: lg).
Proof.
  intros Hlg Hx [|y later] earlier H; simpl in H; simplify_eq.
  - auto.
  - eapply Hlg; eauto.
Qed.

Lemma count_pos_In p lg :
  1 <= count p lg -> exists a, In a lg /\ p a = true.
Proof.
  induction lg as [|x lg IH]; simpl; [lia|].
  destruct (p x) eqn:E; intros H.
  - exists x. auto.
  - destruct IH as (a & Ha & Hp); [lia|]. exists a. auto.
Qed.

Definition is_build_line (a : action) : bool :=
  match a with APrint Stdout _ => true | _ => false end.
Definition is_go_watcher (a : action) : bool :=
  match a with AGoWatcher => true | _ => false end.
Definition is_notify (a : action) : bool :=
  match a with ANotify => true | _ => false end.
Definition is_go_uploader (a : action) : bool :=
  match a with AGoUploader => true | _ => false end.
Definition is_events_call (a : action) : bool :=
  match a with ABuildEventsCall _ => true | _ => false end.
Definition is_events_ok (a : action) : bool :=
  match a with ABuildEventsDone true => true | _ => false end.
Definition is_render_call (a : action) : bool :=
  match a with ARenderCall => true | _ => false end.
Definition is_render_done (a : action) : bool :=
  match a with ARenderDone _ => true | _ => false end.
Definition is_close_source (a : action) : bool :=
  match a with ACloseEventSource => true | _ => false end.
Definition is_recv_input (a : action) : bool :=
  match a with ARecvInputChan => true | _ => false end.

(** How far the main goroutine has come: the statements of [Execute] from
    line 79 on, numbered in the order they are executed (both loops count
    as one statement each, and the return of line 113 stands where line 116
    would). *)
Definition stage (pc : main_pc) : nat :=
  match pc with
  | M79 => 0 | M81 => 1 | M83 => 2 | M85 => 3 | M87 => 4 | M88 => 5
  | M98 => 6
  | M99 _ _ | M100 _ _ _ | M101 _ _ _ => 7
  | M111 => 8 | M111_wait => 9 | M112 _ => 10
  | MReturned _ | M116 _ => 11
  | M116_wait _ => 12 | M117 _ _ => 13 | M119 _ => 14 | M121 _ => 15
  | M122 _ _ | M123 _ _ => 16
  | M127 _ => 17
  end.

Definition once_past (n : nat) (pc : main_pc) : nat :=
  if n <? stage pc then 1 else 0.

Arguments once_past : simpl never.

Section Order.
Variable w : World.
Variable r : Resolved.

Definition main_log (s : state) : Prop :=
  (count is_build_line (log s) = once_past 0 (main s) /\
   count is_go_watcher (log s) = once_past 2 (main s) /\
   count is_notify (log s) = once_past 3 (main s) /\
   count is_go_uploader (log s) = once_past 5 (main s)) /\
  (count is_events_call (log s) = once_past 8 (main s) /\
   (forall es, feed_of (main s) = Some es -> 1 <= count is_events_ok (log s)) /\
   count is_render_call (log s) = once_past 11 (main s) /\
   count is_render_done (log s) = once_past 12 (main s) /\
   count is_close_source (log s) = once_past 13 (main s) /\
   count is_recv_input (log s) = once_past 14 (main s)) /\
  (preceded_by is_build_line AGoWatcher (log s) /\
   preceded_by is_go_watcher ANotify (log s) /\
   preceded_by is_notify AGoUploader (log s) /\
   (forall k, preceded_by is_go_uploader (AGoDownloader k) (log s)) /\
   (forall id, preceded_by is_go_uploader (ABuildEventsCall id) (log s))) /\
  (preceded_by is_events_ok ARenderCall (log s) /\
   (forall c, preceded_by is_render_call (ARenderDone c) (log s)) /\
   preceded_by is_render_done ACloseEventSource (log s) /\
   preceded_by is_close_source ARecvInputChan (log s) /\
   (forall c, preceded_by is_recv_input (AMainExit c) (log s))).

Lemma main_log_init : main_log init.
Proof.
  unfold main_log; simpl.
  repeat split; intros; try discriminate; try lia; apply preceded_by_nil.
Qed.

Lemma main_log_step l s : main_log s -> main_log (step w r l s).
Proof.
  unfold main_log.
  destruct s as [p m wt u ds n t ic oc lg]; simpl.
  intros ((A1 & A2 & A3 & A4) & (B1 & B2 & B3 & B4 & B5 & B6) &
          (C1 & C2 & C3 & C4 & C5) & (D1 & D2 & D3 & D4 & D5)).
  unfold build_line, aborting_line, failure_line, exiting_line.
  step_cases; subst; simpl in *.
  all: try solve [auto 20].
  all: unfold once_past in *; simpl in *.
  all: try (destruct (BuildEvents w (client r) (build_id r)); simpl in * ).
  all: repeat match goal with
         | |- _ /\ _ => split
         | |- forall _, _ => intro
         | |- preceded_by _ _ (_ :: _) =>
             apply preceded_by_cons; [solve [auto] | intros; simplify_eq]
         end.
  all: simplify_eq; eauto; try lia.
  all: try (match goal with
            | H : forall es, Some ?x = Some es -> _ |- _ =>
                specialize (H _ eq_refl); lia
            end).
Qed.

Lemma main_log_run sched : main_log (run w r sched init).
Proof. apply run_invariant; [apply main_log_init | apply main_log_step]. Qed.

(** *** The signal path in the log *)

Definition is_buffered (a : action) : bool :=
  match a with AInterrupt _ true => true | _ => false end.

(** How often [abortOnSignal] has received from [terminate]. *)
Definition recvs (pc : option watcher_pc) : nat :=
  match pc with
  | None | Some W137 => 0
  | Some W149 | Some W150 => 2
  | _ => 1
  end.

Definition announced (pc : option watcher_pc) : bool :=
  match pc with
  | None | Some W137 | Some W139 => false
  | _ => true
  end.

Definition signal_log (s : state) : Prop :=
  ((before_go_watcher (main s) = true -> watcher s = None) /\
   (stage (main s) <= 3 -> notified s = false) /\
   (notified s = false -> terminate s = []) /\
   length (terminate s) <= 1) /\
  (count is_recv_terminate (log s) = recvs (watcher s) /\
   count is_buffered (log s) =
     count is_recv_terminate (log s) + length (terminate s)) /\
  ((1 <= recvs (watcher s) -> In ARecvTerminate (log s)) /\
   (announced (watcher s) = true -> In aborting_line (log s)) /\
   (aborts_issued (watcher s) = 1 -> In (AAbortCall (build_id r)) (log s)) /\
   (watcher s = Some W150 -> In exiting_line (log s))) /\
  (before ARecvTerminate aborting_line (log s) /\
   (forall id, before aborting_line (AAbortCall id) (log s)) /\
   (forall e, before (AAbortCall (build_id r)) (AAbortDone e) (log s)) /\
   (forall c, before exiting_line (AWatcherExit c) (log s))) /\
  ((forall id, In (AAbortCall id) (log s) -> id = build_id r) /\
   (forall id, In (ABuildEventsCall id) (log s) -> id = build_id r) /\
   (forall c, In (AWatcherExit c) (log s) -> watcher s = Some W150)).

Lemma signal_log_init : signal_log init.
Proof.
  unfold signal_log; simpl.
  repeat split; intros; try discriminate; try lia; try tauto;
    apply before_nil.
Qed.

Lemma signal_log_step l s : signal_log s -> signal_log (step w r l s).
Proof.
  unfold signal_log.
  destruct s as [p m wt u ds n t ic oc lg]; simpl.
  intros ((A1 & A2 & A3 & A4) & (B1 & B2) & (C1 & C2 & C3 & C4) &
          (D1 & D2 & D3 & D4) & (E1 & E2 & E3)).
  unfold build_line, aborting_line, failure_line, exiting_line in *.
  step_cases; subst; simpl in *.
  all: try solve [auto 20].
  all: repeat match goal with
         | |- _ /\ _ => split
         | |- forall _, _ => intro
         | |- before _ _ (_ :: _) =>
             apply before_cons; [solve [auto] | intros; simplify_eq]
         end.
  all: simplify_eq; eauto; try lia.
  all: repeat match goal with
         | H : (_ <? _) = true |- _ => apply Nat.ltb_lt in H
         | H : (_ <? _) = false |- _ => apply Nat.ltb_ge in H
         | H : ?a <= ?b -> _ |- _ =>
             let H' := fresh in
             assert (H' : a <= b) by lia; specialize (H H'); clear H'
         | H : ?x = ?x -> _ |- _ => specialize (H eq_refl)
         end.
  all: rewrite ?length_app in *; subst; simpl in *; try lia.
  all: try solve [in_log; eauto].
  all: try match goal with
         | H : ?P, U : ?P -> Some _ = None |- _ =>
             specialize (U H); discriminate
         end.
  specialize (A3 eq_refl). subst. simpl in *. exact B2.
Qed.

Lemma signal_log_run sched : signal_log (run w r sched init).
Proof.
  apply run_invariant; [apply signal_log_init | apply signal_log_step].
Qed.

(** Only the delivery of a signal logs one. *)
Definition is_delivery (a : action) : bool :=
  match a with AInterrupt _ _ => true | _ => false end.

Definition interrupts (sched : list label) : nat :=
  length (List.filter is_interrupt sched).

Lemma deliveries_step l s :
  count is_delivery (log (step w r l s)) =
  count is_delivery (log s) +
  (if is_interrupt l then match proc s with Running => 1 | _ => 0 end else 0).
Proof.
  destruct s as [p m wt u ds n t ic oc lg]; simpl.
  unfold build_line, aborting_line, failure_line, exiting_line.
  destruct p; [|unfold step; simpl; destruct (is_interrupt l); lia ..].
  destruct l as [sig|g|g]; simpl.
  all: step_cases; subst; simpl in *; try discriminate; lia.
Qed.

Lemma deliveries_run sched : forall s,
  count is_delivery (log (run w r sched s)) <=
  count is_delivery (log s) + interrupts sched.
Proof.
  induction sched as [|l sched IH]; intros s; simpl; [unfold interrupts; simpl; lia|].
  specialize (IH (step w r l s)). rewrite deliveries_step in IH.
  unfold interrupts in *. simpl.
  destruct (is_interrupt l); simpl; destruct (proc s); lia.
Qed.

Lemma buffered_le_deliveries lg : count is_buffered lg <= count is_delivery lg.
Proof.
  induction lg as [|a lg IH]; simpl; [lia|].
  destruct a as [sig []| | | | | | | | | | | | | | | | | | | | | | | |];
    simpl; lia.
Qed.

(** *** The downloads in the log *)

Definition is_download_call (k : nat) (a : action) : bool :=
  match a with ADownloadCall k' => Nat.eqb k' k | _ => false end.

Definition is_download_done (k : nat) (a : action) : bool :=
  match a with ADownloadDone k' _ => Nat.eqb k' k | _ => false end.

(** How often a download goroutine has called [Download], and how often
    the call has returned, by where the goroutine stands. *)
Definition calls_of (d : downloader) : nat :=
  match dl_pc d with
  | O102 | O103 => 0
  | O103_wait => 1
  | O106 | ODone => if has_path (out_Path (dl_o d)) then 1 else 0
  end.

Definition dones_of (d : downloader) : nat :=
  match dl_pc d with
  | O106 | ODone => if has_path (out_Path (dl_o d)) then 1 else 0
  | _ => 0
  end.

Definition per (f : downloader -> nat) (ds : list downloader) (k : nat) : nat :=
  match ds !! k with Some d => f d | None => 0 end.

Lemma per_go f ds o j k :
  f {| dl_o := o; dl_chan := j; dl_pc := O102 |} = 0 ->
  per f (ds ++ [{| dl_o := o; dl_chan := j; dl_pc := O102 |}]) k = per f ds k.
Proof.
  intros Hf. unfold per. destruct (decide (k < length ds)) as [Hk | Hk].
  - rewrite lookup_app_l; auto.
  - rewrite (lookup_ge_None_2 ds k) by lia.
    rewrite lookup_app_r by lia.
    destruct (k - length ds) as [|n]; simpl; auto.
Qed.

Lemma per_goto f ds k0 d pc k :
  ds !! k0 = Some d ->
  per f (<[k0 := set_pc d pc]> ds) k =
  if Nat.eqb k0 k then f (set_pc d pc) else per f ds k.
Proof.
  intros Hd. unfold per. destruct (Nat.eqb_spec k0 k) as [<- | Hne].
  - rewrite list_lookup_insert_eq by (eapply lookup_lt_Some; eauto).
    reflexivity.
  - rewrite list_lookup_insert_ne; auto.
Qed.

Definition download_log (s : state) : Prop :=
  (forall k, count (is_download_call k) (log s) = per calls_of (downloaders s) k) /\
  (forall k, count (is_download_done k) (log s) = per dones_of (downloaders s) k) /\
  (forall k ok, In (ADownloadDone k ok) (log s) ->
     exists o, outputs r !! k = Some o /\ ok = Download w (client r) o) /\
  (forall k ok,
     preceded_by (is_download_call k) (ADownloadDone k ok) (log s)).

Lemma download_log_init : download_log init.
Proof.
  unfold download_log; simpl. repeat split; auto.
  - intros k ok [].
  - intros; apply preceded_by_nil.
Qed.

Lemma download_log_step l s :
  dl_shape r s -> download_log s -> download_log (step w r l s).
Proof.
  unfold dl_shape, download_log.
  destruct s as [p m wt u ds n t ic oc lg]; simpl.
  intros (_ & _ & _ & Hd & _) (L1 & L2 & L3 & L4).
  unfold build_line, aborting_line, failure_line, exiting_line.
  step_cases; subst; simpl in *.
  all: try solve [auto 10].
  all: try solve [split; [|split; [|split]]; auto;
                  [intros ? ? [?|?]; try discriminate; eauto
                  |intros; apply preceded_by_cons; auto; discriminate]].
  all: try match goal with
         | H : _ !! _ = Some ?d |- _ =>
             destruct (Hd _ _ H) as (Hch & Ho & Hpath)
         end.
  all: split; [|split; [|split]].
  all: try (intros k0; rewrite ?per_go by reflexivity; auto; fail).
  all: try (intros ? ? [?|?]; try discriminate; eauto; fail).
  all: try (intros; apply preceded_by_cons; auto; discriminate).
  all: try (intros k0; rewrite per_goto by eauto; rewrite ?L1, ?L2, ?Hch;
            destruct (Nat.eqb_spec k k0) as [<-|]; [|reflexivity];
            unfold per;
            match goal with H : _ !! _ = Some _ |- _ => rewrite H end;
            unfold calls_of, dones_of, set_pc, has_path; simpl;
            match goal with H : dl_pc _ = _ |- _ => rewrite H end;
            try (rewrite Hpath by auto);
            repeat match goal with H : negb _ = _ |- _ => rewrite H end;
            simpl; reflexivity).
  - intros k0 ok [H | H]; [|eauto].
    injection H as <- <-. rewrite Hch. eauto.
  - intros k0 ok. apply preceded_by_cons; auto.
    intros H. injection H as <- <-. rewrite L1, Hch. unfold per, calls_of.
    match goal with H : _ !! _ = Some _ |- _ => rewrite H end.
    match goal with H : dl_pc _ = _ |- _ => rewrite H end. lia.
Qed.

Lemma download_log_run sched : download_log (run w r sched init).
Proof.
  assert (H : dl_shape r (run w r sched init) /\
              download_log (run w r sched init)); [|tauto].
  apply (run_invariant w r (fun s => dl_shape r s /\ download_log s)).
  - split; [apply dl_shape_init | apply download_log_init].
  - intros l s [H1 H2].
    split; [apply dl_shape_step | apply download_log_step]; auto.
Qed.

(** *** One goroutine for each output *)

Definition is_go_downloader (k : nat) (a : action) : bool :=
  match a with AGoDownloader k' => Nat.eqb k' k | _ => false end.

Definition spawn_log (s : state) : Prop :=
  forall k,
    count (is_go_downloader k) (log s) =
    if k <? length (downloaders s) then 1 else 0.

Lemma spawn_log_step l s :
  dl_shape r s -> spawn_log s -> spawn_log (step w r l s).
Proof.
  unfold dl_shape, spawn_log.
  destruct s as [p m wt u ds n t ic oc lg]; simpl.
  intros (_ & Hs & _) L.
  unfold build_line, aborting_line, failure_line, exiting_line.
  step_cases; subst; simpl in *; rewrite ?length_insert; auto.
  intros k. destruct (Hs _ _ _ eq_refl) as (<- & _). rewrite length_app, L.
  simpl.
  repeat match goal with
         | |- context [?a =? ?b] => destruct (Nat.eqb_spec a b)
         | |- context [?a <? ?b] => destruct (Nat.ltb_spec a b)
         end; lia.
Qed.

Lemma spawn_log_run sched : spawn_log (run w r sched init).
Proof.
  assert (H : dl_shape r (run w r sched init) /\
              spawn_log (run w r sched init)); [|tauto].
  apply (run_invariant w r (fun s => dl_shape r s /\ spawn_log s)).
  - split; [apply dl_shape_init | intros k; reflexivity].
  - intros l s [H1 H2].
    split; [apply dl_shape_step | apply spawn_log_step]; auto.
Qed.

(** *** A run without an interrupt leaves the signal path silent *)

Definition quiet_log (s : state) : Prop :=
  terminate s = [] /\
  (watcher s = None \/ watcher s = Some W137) /\
  count is_signal_path (log s) = 0.

Lemma quiet_log_step l s :
  is_interrupt l = false -> quiet_log s -> quiet_log (step w r l s).
Proof.
  unfold quiet_log. destruct s as [p m wt u ds n t ic oc lg]; simpl.
  intros Hl (Ht & Hw & Hc).
  unfold build_line, aborting_line, failure_line, exiting_line.
  step_cases; finish.
Qed.

Lemma quiet_log_run sched :
  no_interrupt sched = true -> quiet_log (run w r sched init).
Proof.
  assert (G : forall s, quiet_log s -> no_interrupt sched = true ->
                        quiet_log (run w r sched s)).
  { induction sched as [|l sched IH]; intros s Hs Hq; simpl; auto.
    simpl in Hq. apply andb_prop in Hq as [Hl Hq].
    apply IH; auto. apply quiet_log_step; auto.
    destruct (is_interrupt l); simpl in *; congruence. }
  apply G. unfold quiet_log; simpl; auto.
Qed.
End Order.

(** *** The join of the download goroutines *)

Definition is_recv_output (k : nat) (a : action) : bool :=
  match a with ARecvOutputChan k' => Nat.eqb k' k | _ => false end.

Section Join.
Variable w : World.
Variable r : Resolved.

(** Lines 105 and 121-125: channel [k] is closed after the download of
    [outputs[k]] has returned, and the main goroutine receives from the
    channels one after the other, each after it was closed. *)
Definition join_log (s : state) : Prop :=
  (forall k,
     count (is_recv_output k) (log s) =
     if k <? received r (main s) then 1 else 0) /\
  received r (main s) <= length (outputs r) /\
  (forall k, preceded_by (is_close_output k) (ARecvOutputChan k) (log s)) /\
  (forall k,
     preceded_by (is_recv_output k) (ARecvOutputChan (S k)) (log s)) /\
  (forall k o,
     outputs r !! k = Some o -> has_path (out_Path o) = true ->
     preceded_by (is_download_done k) (ACloseOutputChan k) (log s)).

Lemma join_log_init : join_log init.
Proof.
  unfold join_log; simpl.
  repeat split; auto; try lia; intros; apply preceded_by_nil.
Qed.

Lemma closed_upto_length n oc : closed_upto n oc -> n <= length oc.
Proof.
  intros H. destruct n as [|n]; [lia|].
  specialize (H n (Nat.lt_succ_diag_r n)).
  apply lookup_lt_Some in H. lia.
Qed.

Lemma join_log_step l s :
  dl_shape r s -> dl_log r s -> download_log w r s -> join_log s ->
  join_log (step w r l s).
Proof.
  unfold dl_shape, dl_log, download_log, join_log.
  destruct s as [p m wt u ds n t ic oc lg]; simpl.
  intros (_ & _ & Ha & Hd & Hc) (C1 & _ & C3) (_ & D2 & _)
    (J1 & J2 & J3 & J4 & J5).
  step_cases; subst; simpl in *.
  all: try solve [auto 10].
  all: unfold build_line, aborting_line, failure_line, exiting_line.
  all: split; [|split; [|split; [|split]]]; auto; try lia.
  all: try (intros; apply preceded_by_cons; eauto; discriminate).
  - unfold has_outputs in *.
    match goal with H : (_ <? _) = false |- _ => apply Nat.ltb_ge in H end.
    intros k. rewrite J1. destruct (Nat.ltb_spec k (length (outputs r))); lia.
  - match goal with H : (_ <? _) = false |- _ => apply Nat.ltb_ge in H end.
    pose proof (closed_upto_length _ _ C3). destruct (Ha eq_refl) as [_ Hl].
    intros k0. rewrite J1.
    destruct (Nat.ltb_spec k0 k), (Nat.ltb_spec k0 (length (outputs r))); lia.
  - intros k0. rewrite J1.
    destruct (Nat.eqb_spec k k0), (Nat.ltb_spec k0 k), (Nat.ltb_spec k0 (S k));
      lia.
  - destruct (Ha eq_refl) as [_ Hl].
    match goal with H : oc !! _ = Some _ |- _ => apply lookup_lt_Some in H end.
    lia.
  - intros k0. apply preceded_by_cons; auto.
    intros H. injection H as <-. rewrite C1. unfold closes.
    match goal with H : oc !! _ = Some Closed |- _ =>
      destruct (Hc _ H) as (d & -> & Hpc) end.
    unfold is_done. rewrite Hpc. lia.
  - intros k0. apply preceded_by_cons; auto.
    intros H. injection H as ->. rewrite J1.
    destruct (Nat.ltb_spec k0 (S k0)); lia.
  - intros k0 o Ho Hp. apply preceded_by_cons; eauto.
    intros H. injection H as H.
    match goal with H : ds !! _ = Some d |- _ =>
      destruct (Hd _ _ H) as (Hch & Hout & _); pose proof H as Hk end.
    rewrite Hch in H. subst k0. rewrite D2. unfold per, dones_of.
    rewrite Hk.
    match goal with H : dl_pc d = _ |- _ => rewrite H end.
    assert (o = dl_o d) by congruence. subst o. rewrite Hp. lia.
Qed.

Lemma join_log_run sched : join_log (run w r sched init).
Proof.
  assert (H : (dl_shape r (run w r sched init) /\
               dl_log r (run w r sched init)) /\
              download_log w r (run w r sched init) /\
              join_log (run w r sched init)); [|tauto].
  apply (run_invariant w r
           (fun s => (dl_shape r s /\ dl_log r s) /\
                     download_log w r s /\ join_log s)).
  - split; [split; [apply dl_shape_init | apply dl_log_init]|
            split; [apply download_log_init | apply join_log_init]].
  - intros l s [[H1 H2] [H3 H4]].
    split; [split; [apply dl_shape_step | apply dl_log_step]|
            split; [apply download_log_step | apply join_log_step]]; auto.
Qed.

End Join.

(** ** More properties of [Execute] *)

(** A target that cannot be reached. *)
Module Offline.
Definition world : World :=
  {| Fly_Target := "nowhere";
     TargetClient := fun _ => inl "unknown target";
     ValidateClient := fun _ _ _ => None;
     LoadTaskConfig := fun _ _ => inr {| tc_Inputs := []; tc_Outputs := [] |};
     DetermineInputs := fun _ _ _ _ => inr [];
     DetermineOutputs := fun _ _ _ => inr [];
     CreateBuild := fun _ _ _ _ _ _ _ => inr {| ID := 1%Z |};
     Upload := fun _ _ _ => true;
     Download := fun _ _ => true;
     BuildEvents := fun _ _ => inr 1;
     AbortBuild := fun _ _ => None;
     Render := fun _ => 0%Z |}.
End Offline.

(** X1.  An error [Execute] returns before a build exists is the error of
    one of its six calls, the calls before it having succeeded: of
    [TargetClient], [ValidateClient], [LoadTaskConfig], [DetermineInputs],
    [DetermineOutputs] or [CreateBuild]. *)
Theorem prelude_error_is_a_call_error w command args err :
  prelude w command args = inl err ->
  TargetClient w (Fly_Target w) = inl err \/
  exists c,
    TargetClient w (Fly_Target w) = inr c /\
    (ValidateClient w c (Fly_Target w) false = Some err \/
     ValidateClient w c (Fly_Target w) false = None /\
     (LoadTaskConfig w (TaskConfig command) args = inl err \/
      exists tc,
        LoadTaskConfig w (TaskConfig command) args = inr tc /\
        (DetermineInputs w c (tc_Inputs tc) (Inputs command)
           (InputsFrom command) = inl err \/
         exists ins,
           DetermineInputs w c (tc_Inputs tc) (Inputs command)
             (InputsFrom command) = inr ins /\
           (DetermineOutputs w c (tc_Outputs tc) (Outputs command) = inl err \/
            exists outs,
              DetermineOutputs w c (tc_Outputs tc) (Outputs command)
                = inr outs /\
              CreateBuild w c (Privileged command) ins outs tc
                (Tags command) (Fly_Target w) = inl err)))).
Proof.
  unfold prelude, ErrorMonad.bind, ErrorMonad.check.
  destruct (TargetClient w (Fly_Target w)) as [e|c]; [left; congruence|].
  intros H. right. exists c. split; auto.
  destruct (ValidateClient w c (Fly_Target w) false) as [e|];
    [left; congruence|].
  right. split; auto.
  destruct (LoadTaskConfig w (TaskConfig command) args) as [e|tc];
    [left; congruence|].
  right. exists tc. split; auto.
  destruct (DetermineInputs w c (tc_Inputs tc) (Inputs command)
              (InputsFrom command)) as [e|ins]; [left; congruence|].
  right. exists ins. split; auto.
  destruct (DetermineOutputs w c (tc_Outputs tc) (Outputs command))
    as [e|outs]; [left; congruence|].
  right. exists outs. split; auto.
  destruct (CreateBuild w c (Privileged command) ins outs tc (Tags command)
              (Fly_Target w)) as [e|b]; congruence.
Qed.

Lemma prelude_error_is_a_call_error_witness :
  prelude Offline.world Example.command ["-x"] = inl "unknown target" /\
  TargetClient Offline.world (Fly_Target Offline.world) =
    inl "unknown target".
Proof.
  split; [reflexivity|].
  destruct (prelude_error_is_a_call_error Offline.world Example.command ["-x"]
              "unknown target" eq_refl) as [H | (c & H & _)].
  - exact H.
  - discriminate H.
Defined.

(** X2.  When the prelude succeeds every one of its calls has succeeded,
    and what the rest of [Execute] works with is what they returned: the
    build was created from the very inputs and outputs that are then
    transferred, with the command's privilege flag and tags, and uploads
    use the command's exclude-ignored flag. *)
Theorem prelude_success_carries_call_results w command args r :
  prelude w command args = inr r ->
  exists tc,
    TargetClient w (Fly_Target w) = inr (client r) /\
    ValidateClient w (client r) (Fly_Target w) false = None /\
    LoadTaskConfig w (TaskConfig command) args = inr tc /\
    DetermineInputs w (client r) (tc_Inputs tc) (Inputs command)
      (InputsFrom command) = inr (inputs r) /\
    DetermineOutputs w (client r) (tc_Outputs tc) (Outputs command)
      = inr (outputs r) /\
    CreateBuild w (client r) (Privileged command) (inputs r) (outputs r) tc
      (Tags command) (Fly_Target w) = inr (build r) /\
    excludeIgnored r = ExcludeIgnored command.
Proof.
  unfold prelude, ErrorMonad.bind, ErrorMonad.check.
  destruct (TargetClient w (Fly_Target w)) as [e|c] eqn:Hc; [discriminate|].
  destruct (ValidateClient w c (Fly_Target w) false) as [e|] eqn:Hv;
    [discriminate|].
  destruct (LoadTaskConfig w (TaskConfig command) args) as [e|tc] eqn:Hl;
    [discriminate|].
  destruct (DetermineInputs w c (tc_Inputs tc) (Inputs command)
              (InputsFrom command)) as [e|ins] eqn:Hi; [discriminate|].
  destruct (DetermineOutputs w c (tc_Outputs tc) (Outputs command))
    as [e|outs] eqn:Ho; [discriminate|].
  destruct (CreateBuild w c (Privileged command) ins outs tc (Tags command)
              (Fly_Target w)) as [e|b] eqn:Hb; [discriminate|].
  intros H. injection H as <-. simpl. exists tc. repeat split; auto.
Qed.

Lemma prelude_success_carries_call_results_witness :
  prelude Example.healthy Example.command [] =
    inr (Example.resolved Example.outs) /\
  exists tc,
    CreateBuild Example.healthy 7 false Example.ins Example.outs tc []
      "ci" = inr {| ID := 42%Z |}.
Proof.
  split; [reflexivity|].
  destruct (prelude_success_carries_call_results Example.healthy
              Example.command [] (Example.resolved Example.outs) eq_refl)
    as (tc & _ & _ & _ & _ & _ & H & _).
  exists tc. exact H.
Defined.

(** X3.  In every run the first thing is the line "executing build <id>";
    then the watcher goroutine is started, then [signal.Notify] is called,
    then the upload goroutine is started, and only then the download
    goroutines and the call of [BuildEvents].  Each of the first four
    happens at most once. *)
Theorem startup_order w command args sched :
  (count is_build_line (log (Execute w command args sched)) <= 1 /\
   count is_go_watcher (log (Execute w command args sched)) <= 1 /\
   count is_notify (log (Execute w command args sched)) <= 1 /\
   count is_go_uploader (log (Execute w command args sched)) <= 1) /\
  preceded_by is_build_line AGoWatcher (log (Execute w command args sched)) /\
  preceded_by is_go_watcher ANotify (log (Execute w command args sched)) /\
  preceded_by is_notify AGoUploader (log (Execute w command args sched)) /\
  (forall k,
     preceded_by is_go_uploader (AGoDownloader k)
       (log (Execute w command args sched))) /\
  (forall id,
     preceded_by is_go_uploader (ABuildEventsCall id)
       (log (Execute w command args sched))).
Proof.
  unfold Execute. destruct (prelude w command args) as [err | r].
  - simpl. repeat split; try lia.
    all: intros; apply preceded_by_cons;
      [apply preceded_by_nil | discriminate].
  - destruct (main_log_run w r sched)
      as ((A1 & A2 & A3 & A4) & _ & (C1 & C2 & C3 & C4 & C5) & _).
    rewrite A1, A2, A3, A4. unfold once_past.
    repeat split; auto;
      match goal with |- context [?a <? ?b] => destruct (a <? b) end; lia.
Qed.

(** X4.  The event source is opened at most once; it is rendered only
    after [BuildEvents] succeeded, closed only after the rendering has
    returned, and the join starts only after it was closed.  A run in which
    the main goroutine calls [os.Exit] has rendered and closed it exactly
    once. *)
Theorem event_source_rendered_then_closed w command args sched :
  (count is_events_call (log (Execute w command args sched)) <= 1 /\
   count is_render_call (log (Execute w command args sched)) <= 1 /\
   count is_close_source (log (Execute w command args sched)) <= 1) /\
  (preceded_by is_events_ok ARenderCall (log (Execute w command args sched)) /\
   (forall c,
      preceded_by is_render_call (ARenderDone c)
        (log (Execute w command args sched))) /\
   preceded_by is_render_done ACloseEventSource
     (log (Execute w command args sched)) /\
   preceded_by is_close_source ARecvInputChan
     (log (Execute w command args sched)) /\
   (forall c,
      preceded_by is_recv_input (AMainExit c)
        (log (Execute w command args sched)))) /\
  (forall c,
     In (AMainExit c) (log (Execute w command args sched)) ->
     count is_render_done (log (Execute w command args sched)) = 1 /\
     count is_close_source (log (Execute w command args sched)) = 1).
Proof.
  unfold Execute. destruct (prelude w command args) as [err | r].
  - simpl. repeat split; try lia.
    all: try (intros; apply preceded_by_cons;
              [apply preceded_by_nil | discriminate]).
    all: destruct H as [H | []]; discriminate.
  - destruct (main_log_run w r sched)
      as (_ & (B1 & _ & B3 & B4 & B5 & _) & _ & D).
    split; [|split; [exact D|]].
    + rewrite B1, B3, B5. unfold once_past.
      repeat split;
        match goal with |- context [?a <? ?b] => destruct (a <? b) end; lia.
    + intros c Hin.
      destruct (exit_inv_run w r sched) as (_ & _ & _ & _ & Hm & _).
      destruct (Hm c Hin) as [_ Hpc].
      rewrite B4, B5, Hpc. split; reflexivity.
Qed.

Lemma event_source_rendered_then_closed_witness :
  In (AMainExit 0)
    (log (Execute Example.healthy Example.command []
            (complete_sched (Example.resolved Example.outs)))) /\
  count is_close_source
    (log (Execute Example.healthy Example.command []
            (complete_sched (Example.resolved Example.outs)))) = 1.
Proof.
  assert (Hin : In (AMainExit 0)
    (log (Execute Example.healthy Example.command []
            (complete_sched (Example.resolved Example.outs)))))
    by (vm_compute; auto).
  split; [exact Hin|].
  destruct (event_source_rendered_then_closed Example.healthy Example.command
              [] (complete_sched (Example.resolved Example.outs)))
    as (_ & _ & H).
  apply (H 0%Z Hin).
Defined.

(** X5.  When the main goroutine calls [os.Exit], every transfer is over:
    each input with a path has been uploaded, in order, and each output
    with a path has been downloaded, the call having returned; bindings
    without a path have not been touched.  In every run an output is
    downloaded at most once, and what a download reports is the answer of
    [Download] for that output. *)
Theorem exit_only_after_all_transfers w command args r sched :
  prelude w command args = inr r ->
  (forall k,
     count (is_download_call k) (log (Execute w command args sched)) <= 1 /\
     count (is_download_done k) (log (Execute w command args sched)) <=
     count (is_download_call k) (log (Execute w command args sched))) /\
  (forall k ok,
     In (ADownloadDone k ok) (log (Execute w command args sched)) ->
     exists o, outputs r !! k = Some o /\ ok = Download w (client r) o) /\
  (forall c,
     In (AMainExit c) (log (Execute w command args sched)) ->
     select is_upload (log (Execute w command args sched)) =
       upload_actions w r 0 (inputs r) /\
     forall k o,
       outputs r !! k = Some o ->
       count (is_download_call k) (log (Execute w command args sched)) =
         (if has_path (out_Path o) then 1 else 0) /\
       count (is_download_done k) (log (Execute w command args sched)) =
         (if has_path (out_Path o) then 1 else 0)).
Proof.
  intros Hpre. unfold Execute. rewrite Hpre.
  destruct (download_log_run w r sched) as (L1 & L2 & L3 & _).
  split; [|split]; auto.
  - intros k. rewrite L1, L2. unfold per.
    destruct (_ !! k) as [d|]; [|lia].
    unfold calls_of, dones_of.
    destruct (dl_pc d); destruct (has_path (out_Path (dl_o d))); lia.
  - intros c Hin.
    destruct (exit_inv_run w r sched) as (_ & _ & _ & _ & Hm & _).
    destruct (Hm c Hin) as [_ Hpc]. split.
    + destruct (up_log_run w r sched) as (_ & U2 & U3 & _ & _ & U6 & U7 & _).
      rewrite Hpc in U6. specialize (U6 eq_refl).
      apply in_split in U6 as (later & earlier & Hlg).
      pose proof (U7 _ _ Hlg) as Hc.
      assert (Hc' : In ACloseInputChan (log (run w r sched init)))
        by (rewrite Hlg; apply in_or_app; right; right; auto).
      pose proof (count_In is_close_input _ _ Hc' eq_refl) as Hn.
      rewrite U3 in Hn.
      destruct (uploader (run w r sched init)) as [[]|]; simpl in Hn; try lia.
      simpl in U2. rewrite app_nil_r in U2. exact U2.
    + intros k o Hk.
      destruct (dl_inv_run w r sched) as ((_ & _ & _ & Hd & Hcl) & _ & _ & L4).
      rewrite Hpc in L4. simpl in L4.
      destruct (Hcl k (L4 k (lookup_lt_Some _ _ _ Hk))) as (d & Hdk & Hdone).
      destruct (Hd k d Hdk) as (_ & Ho & _).
      assert (o = dl_o d) by congruence. subst o.
      rewrite L1, L2. unfold per, calls_of, dones_of. rewrite Hdk, Hdone.
      auto.
Qed.

Lemma exit_only_after_all_transfers_witness :
  (prelude Example.healthy Example.command [] =
     inr (Example.resolved Example.outs) /\
   In (AMainExit 0)
     (log (Execute Example.healthy Example.command []
             (complete_sched (Example.resolved Example.outs))))) /\
  count (is_download_done 1)
    (log (Execute Example.healthy Example.command []
            (complete_sched (Example.resolved Example.outs)))) = 1.
Proof.
  assert (Hin : In (AMainExit 0)
    (log (Execute Example.healthy Example.command []
            (complete_sched (Example.resolved Example.outs)))))
    by (vm_compute; auto).
  split; [split; [reflexivity | exact Hin]|].
  destruct (exit_only_after_all_transfers Example.healthy Example.command []
              (Example.resolved Example.outs)
              (complete_sched (Example.resolved Example.outs)) eq_refl)
    as (_ & _ & H).
  destruct (H 0%Z Hin) as [_ H'].
  apply (H' 1 {| out_Name := "bin"; out_Path := "/work/bin" |} eq_refl).
Defined.

(** X6.  A run without an interrupt leaves the signal path untouched: the
    watcher stays at its first receive, no abort call is issued, nothing is
    written to standard error, and the watcher does not end the process. *)
Theorem no_interrupt_no_abort w command args sched :
  no_interrupt sched = true ->
  count is_signal_path (log (Execute w command args sched)) = 0 /\
  count is_abort_call (log (Execute w command args sched)) = 0 /\
  (forall c, ~ In (AWatcherExit c) (log (Execute w command args sched))) /\
  (forall m, ~ In (APrint Stderr m) (log (Execute w command args sched))) /\
  (watcher (Execute w command args sched) = None \/
   watcher (Execute w command args sched) = Some W137).
Proof.
  intros Hq. unfold Execute. destruct (prelude w command args) as [err | r].
  - simpl. repeat split; auto; intros ? [H | []]; discriminate.
  - destruct (quiet_log_run w r sched Hq) as (_ & Hw & Hc).
    destruct (abort_inv_run w r sched) as [Ha _].
    repeat split; auto.
    + rewrite Ha. destruct Hw as [-> | ->]; reflexivity.
    + intros c. apply (count_zero_not_In is_signal_path); auto.
    + intros m. apply (count_zero_not_In is_signal_path); auto.
Qed.

Lemma no_interrupt_no_abort_witness :
  no_interrupt (complete_sched (Example.resolved Example.outs)) = true /\
  count is_abort_call
    (log (Execute Example.healthy Example.command []
            (complete_sched (Example.resolved Example.outs)))) = 0.
Proof.
  split; [reflexivity|].
  apply (no_interrupt_no_abort Example.healthy Example.command []
           (complete_sched (Example.resolved Example.outs))).
  reflexivity.
Defined.

(** X7.  The watcher receives a signal at most twice and never more often
    than signals were delivered; a delivered signal that is neither
    received nor waiting in the one-slot buffer was dropped.  So a forced
    exit takes at least two interrupts, and a run with at most one
    interrupt that exits does so with the code [eventstream.Render]
    returned. *)
Theorem forced_exit_needs_two_interrupts w command args r sched :
  prelude w command args = inr r ->
  (count is_recv_terminate (log (Execute w command args sched)) <= 2 /\
   length (terminate (Execute w command args sched)) <= 1 /\
   count is_recv_terminate (log (Execute w command args sched)) +
   length (terminate (Execute w command args sched)) <= interrupts sched) /\
  (forall c,
     In (AWatcherExit c) (log (Execute w command args sched)) ->
     count is_recv_terminate (log (Execute w command args sched)) = 2 /\
     2 <= interrupts sched) /\
  (forall c,
     interrupts sched <= 1 ->
     proc (Execute w command args sched) = Exited c ->
     exists es,
       BuildEvents w (client r) (build_id r) = inr es /\ c = Render w es).
Proof.
  intros Hpre. unfold Execute. rewrite Hpre.
  destruct (signal_log_run w r sched)
    as ((_ & _ & _ & A4) & (B1 & B2) & _ & _ & (_ & _ & E3)).
  pose proof (deliveries_run w r sched init) as Hd. simpl in Hd.
  pose proof (buffered_le_deliveries (log (run w r sched init))) as Hb.
  assert (Hr : count is_recv_terminate (log (run w r sched init)) <= 2).
  { rewrite B1. destruct (watcher _) as [[]|]; simpl; lia. }
  split; [|split].
  - repeat split; auto. lia.
  - intros c Hin. rewrite (E3 c Hin) in B1. simpl in B1. lia.
  - intros c Hle Hp.
    destruct (exit_inv_run w r sched) as (_ & _ & Hc & Hex & _).
    destruct (Hex c Hp) as [[Hm _] | (_ & _ & Hin)].
    + apply Hc. rewrite Hm. reflexivity.
    + rewrite (E3 c Hin) in B1. simpl in B1. lia.
Qed.

Lemma forced_exit_needs_two_interrupts_witness :
  (prelude Example.healthy Example.command [] =
     inr (Example.resolved Example.outs) /\
   In (AWatcherExit 2)
     (log (Execute Example.healthy Example.command []
             (Example.abort_answered ++
              Interrupt SIGTERM :: repeat (Run Watcher) 3)))) /\
  2 <= interrupts
         (Example.abort_answered ++
          Interrupt SIGTERM :: repeat (Run Watcher) 3).
Proof.
  assert (Hin : In (AWatcherExit 2)
    (log (Execute Example.healthy Example.command []
            (Example.abort_answered ++
             Interrupt SIGTERM :: repeat (Run Watcher) 3))))
    by (vm_compute; auto).
  split; [split; [reflexivity | exact Hin]|].
  destruct (forced_exit_needs_two_interrupts Example.healthy Example.command
              [] (Example.resolved Example.outs)
              (Example.abort_answered ++
               Interrupt SIGTERM :: repeat (Run Watcher) 3) eq_refl)
    as (_ & H & _).
  apply (H 2%Z Hin).
Defined.

(** X8.  A process that has exited was ended either by the main goroutine,
    with the code [eventstream.Render] returned, or by the watcher, with
    the forced exit code; there is no third way. *)
Theorem exit_code_is_consumer_or_forced w command args r sched c :
  prelude w command args = inr r ->
  proc (Execute w command args sched) = Exited c ->
  (In (AMainExit c) (log (Execute w command args sched)) /\
   exists es,
     BuildEvents w (client r) (build_id r) = inr es /\ c = Render w es) \/
  (In (AWatcherExit c) (log (Execute w command args sched)) /\
   c = forced_exit_code).
Proof.
  intros Hpre. unfold Execute. rewrite Hpre. intros Hp.
  destruct (exit_inv_run w r sched) as (_ & _ & Hc & Hex & _).
  destruct (Hex c Hp) as [[Hm Hin] | (Hf & _ & Hin)].
  - left. split; auto. apply Hc. rewrite Hm. reflexivity.
  - right. auto.
Qed.

Lemma exit_code_is_consumer_or_forced_witness :
  (prelude Example.failing_task Example.command [] =
     inr (Example.resolved Example.outs) /\
   proc (Execute Example.failing_task Example.command []
           (complete_sched (Example.resolved Example.outs))) = Exited 3) /\
  (In (AMainExit 3)
     (log (Execute Example.failing_task Example.command []
             (complete_sched (Example.resolved Example.outs)))) \/
   3%Z = forced_exit_code).
Proof.
  assert (Hp : proc (Execute Example.failing_task Example.command []
                       (complete_sched (Example.resolved Example.outs))) =
               Exited 3) by (vm_compute; reflexivity).
  split; [split; [reflexivity | exact Hp]|].
  destruct (exit_code_is_consumer_or_forced Example.failing_task
              Example.command [] (Example.resolved Example.outs)
              (complete_sched (Example.resolved Example.outs)) 3
              eq_refl Hp) as [[H _] | [_ H]];
    [left; exact H | right; exact H].
Defined.

Lemma main_pc_class (r : Resolved) (s : state) :
  dl_shape r s -> length (downloaders s) <= length (outputs r).
Proof.
  intros (Hb & Hs & Ha & _).
  destruct (main s) eqn:Hm; simpl in *;
    try (destruct Hb as [Hb _]; [reflexivity | lia]);
    try (destruct Ha as [Ha _]; [reflexivity | lia]);
    try (edestruct Hs as (? & ? & ? & ?); [reflexivity | lia]).
Qed.

(** X9.  Each output gets one goroutine and one channel of its own: the
    [k]-th goroutine is started at most once, only for an existing output,
    and serves [outputs[k]] with channel [k].  By the time [BuildEvents] is
    called there is a goroutine and a channel for every output. *)
Theorem one_download_goroutine_per_output w command args r sched :
  prelude w command args = inr r ->
  (forall k,
     count (is_go_downloader k) (log (Execute w command args sched)) <= 1) /\
  (forall k,
     In (AGoDownloader k) (log (Execute w command args sched)) ->
     k < length (outputs r)) /\
  (forall k d,
     downloaders (Execute w command args sched) !! k = Some d ->
     outputs r !! k = Some (dl_o d) /\ dl_chan d = k) /\
  (forall id,
     In (ABuildEventsCall id) (log (Execute w command args sched)) ->
     length (downloaders (Execute w command args sched)) =
       length (outputs r) /\
     length (outputChans (Execute w command args sched)) =
       length (outputs r) /\
     forall k,
       k < length (outputs r) ->
       count (is_go_downloader k) (log (Execute w command args sched)) = 1).
Proof.
  intros Hpre. unfold Execute. rewrite Hpre.
  pose proof (spawn_log_run w r sched) as Hs.
  pose proof (dl_shape_run w r sched) as Hshape.
  pose proof (main_pc_class r _ Hshape) as Hle.
  destruct Hshape as (_ & _ & Ha & Hd & _).
  split; [|split; [|split]].
  - intros k. rewrite Hs. destruct (k <? _); lia.
  - intros k Hin.
    pose proof (count_In (is_go_downloader k) _ _ Hin) as Hc.
    simpl in Hc. rewrite Nat.eqb_refl, Hs in Hc. specialize (Hc eq_refl).
    destruct (Nat.ltb_spec k (length (downloaders (run w r sched init))));
      lia.
  - intros k d Hk. destruct (Hd k d Hk) as (? & ? & _). auto.
  - intros id Hin.
    destruct (main_log_run w r sched) as (_ & (B1 & _) & _).
    pose proof (count_In is_events_call _ _ Hin eq_refl) as Hc.
    rewrite B1 in Hc. unfold once_past in Hc.
    assert (Hafter : after_spawn (main (run w r sched init)) = true).
    { destruct (main (run w r sched init)); simpl in *; auto; lia. }
    destruct (Ha Hafter) as [H1 H2]. repeat split; auto.
    intros k Hk. rewrite Hs, H1.
    destruct (Nat.ltb_spec k (length (outputs r))); lia.
Qed.

Lemma one_download_goroutine_per_output_witness :
  prelude Example.healthy Example.command [] =
    inr (Example.resolved Example.outs) /\
  count (is_go_downloader 1)
    (log (Execute Example.healthy Example.command []
            (complete_sched (Example.resolved Example.outs)))) <= 1.
Proof.
  split; [reflexivity|].
  destruct (one_download_goroutine_per_output Example.healthy Example.command
              [] (Example.resolved Example.outs)
              (complete_sched (Example.resolved Example.outs)) eq_refl)
    as (H & _).
  exact (H 1).
Defined.

(** X10.  The watcher acts in the order of its text: "aborting..." is
    printed only after a signal was received, [AbortBuild] is called only
    after that line was printed and only for the build that was created,
    its return follows its call, and the watcher calls [os.Exit] only after
    printing "exiting immediately". *)
Theorem watcher_announces_before_acting w command args r sched :
  prelude w command args = inr r ->
  before ARecvTerminate aborting_line (log (Execute w command args sched)) /\
  (forall id,
     before aborting_line (AAbortCall id)
       (log (Execute w command args sched))) /\
  (forall id,
     In (AAbortCall id) (log (Execute w command args sched)) ->
     id = Itoa (ID (build r))) /\
  (forall e,
     before (AAbortCall (Itoa (ID (build r)))) (AAbortDone e)
       (log (Execute w command args sched))) /\
  (forall c,
     before exiting_line (AWatcherExit c)
       (log (Execute w command args sched))).
Proof.
  intros Hpre. unfold Execute. rewrite Hpre.
  destruct (signal_log_run w r sched)
    as (_ & _ & _ & (D1 & D2 & D3 & D4) & (E1 & _)).
  repeat split; auto.
Qed.

Lemma watcher_announces_before_acting_witness :
  prelude Example.healthy Example.command [] =
    inr (Example.resolved Example.outs) /\
  (In (AAbortCall "42")
     (log (Execute Example.healthy Example.command []
             Example.abort_answered)) ->
   "42" = Itoa 42).
Proof.
  split; [reflexivity|].
  destruct (watcher_announces_before_acting Example.healthy Example.command
              [] (Example.resolved Example.outs) Example.abort_answered
              eq_refl) as (_ & _ & H & _).
  exact (H "42").
Defined.

(** X12.  The main goroutine joins the download goroutines in the order
    of the outputs: it receives from channel [k] at most once, only for an
    existing output, only after that channel was closed, and only after it
    has received from channel [k-1].  The channel of an output with a path
    is closed only after its download has returned. *)
Theorem outputs_joined_in_order w command args r sched :
  prelude w command args = inr r ->
  (forall k,
     count (is_recv_output k) (log (Execute w command args sched)) <= 1) /\
  (forall k,
     In (ARecvOutputChan k) (log (Execute w command args sched)) ->
     k < length (outputs r)) /\
  (forall k,
     preceded_by (is_close_output k) (ARecvOutputChan k)
       (log (Execute w command args sched))) /\
  (forall k,
     preceded_by (is_recv_output k) (ARecvOutputChan (S k))
       (log (Execute w command args sched))) /\
  (forall k o,
     outputs r !! k = Some o -> has_path (out_Path o) = true ->
     preceded_by (is_download_done k) (ACloseOutputChan k)
       (log (Execute w command args sched))).
Proof.
  intros Hpre. unfold Execute. rewrite Hpre.
  destruct (join_log_run w r sched) as (J1 & J2 & J3 & J4 & J5).
  split; [|split; [|split; [|split]]]; auto.
  - intros k. rewrite J1. destruct (k <? _); lia.
  - intros k Hin.
    pose proof (count_In (is_recv_output k) _ _ Hin) as Hc.
    simpl in Hc. rewrite Nat.eqb_refl, J1 in Hc. specialize (Hc eq_refl).
    destruct (Nat.ltb_spec k (received r (main (run w r sched init)))); lia.
Qed.

Lemma outputs_joined_in_order_witness :
  (prelude Example.healthy Example.command [] =
     inr (Example.resolved Example.outs) /\
   In (ARecvOutputChan 1)
     (log (Execute Example.healthy Example.command []
             (complete_sched (Example.resolved Example.outs))))) /\
  1 < length (outputs (Example.resolved Example.outs)).
Proof.
  assert (Hin : In (ARecvOutputChan 1)
    (log (Execute Example.healthy Example.command []
            (complete_sched (Example.resolved Example.outs)))))
    by (vm_compute; repeat (first [left; reflexivity | right])).
  split; [split; [reflexivity | exact Hin]|].
  destruct (outputs_joined_in_order Example.healthy Example.command []
              (Example.resolved Example.outs)
              (complete_sched (Example.resolved Example.outs)) eq_refl)
    as (_ & H & _).
  exact (H 1 Hin).
Defined.
